(** * apidoc: comment-block extraction, annotation checks and example validation

    A shallow embedding of the parts of the apidoc sources that the
    specification talks about, followed by the properties established about
    them.

    - [Lang]  : internal/lang  (block.go: Blocker rules and [filterSymbols])
    - [Input] : input          (parse.go: [parseBlock], [buildBlock], [Parse])
    - [Doc]   : doc            (request.go, callback.go: the checks run while
                                unmarshalling)
    - [Mock]  : mock           (json.go: path lookup, validation, synthesis)
    - [OpenAPI] : openapi      (path.go: the sanitize methods)
    - [Parser]  : parser       ([getDoc], [parse])
    - [Main]    : cmd/apidoc   (main.go: [getPaths], [parse], [detect])

    Go byte slices are lists of [byte]; Go strings are [string]; slice
    indices are [nat] (no index in the embedded code ever goes below zero);
    a Go panic is an explicit constructor of the result type. *)

From Stdlib Require Import Strings.Byte Strings.Ascii Strings.String.
From Stdlib Require Import Numbers.DecimalString.
From Stdlib Require Import Bool Arith Lia ZArith List Permutation.
Import ListNotations.

Local Open Scope string_scope.
Local Open Scope list_scope.
Local Open Scope nat_scope.

(** ** Bytes and strings *)

(** The bytes of a Go string. *)
Definition bytes (s : string) : list byte := list_byte_of_string s.

Definition newline : byte := x0a.

(** [unicode.IsSpace(rune(v))] for a byte [v]: the rune is in Latin-1, where
    the white space characters are '\t', '\n', '\v', '\f', '\r', ' ',
    U+0085 (NEL) and U+00A0 (NBSP). *)
Definition IsSpace (v : byte) : bool :=
  match v with
  | x09 | x0a | x0b | x0c | x0d | x20 | x85 | xa0 => true
  | _ => false
  end.

(** [strings.IndexByte(s, c)]: index of the first [c] in [s], or -1. *)
Fixpoint IndexByte_from (i : Z) (s : list byte) (c : byte) : Z :=
  match s with
  | [] => (-1)%Z
  | x :: s' => if Byte.eqb x c then i else IndexByte_from (i + 1)%Z s' c
  end.

Definition IndexByte (s : string) (c : byte) : Z := IndexByte_from 0 (bytes s) c.

(** [bytes.HasPrefix(s, prefix)] and [bytes.Equal]. *)
Fixpoint bytes_eqb (a b : list byte) : bool :=
  match a, b with
  | [], [] => true
  | x :: a', y :: b' => Byte.eqb x y && bytes_eqb a' b'
  | _, _ => false
  end.

Definition HasPrefix (s prefix : list byte) : bool :=
  (length prefix <=? length s) && bytes_eqb (firstn (length prefix) s) prefix.

(** The slice expression [s[lo:hi]] for [lo <= hi <= len(s)]. *)
Definition slice (s : list byte) (lo hi : nat) : list byte :=
  firstn (hi - lo) (skipn lo s).

(** ** internal/lang *)

Module Lang.

(** *** filterSymbols (block.go) *)

(** A byte the range loop of [filterSymbols] steps over: white space other
    than a newline. *)
Definition skippable (v : byte) : bool := IsSpace v && negb (Byte.eqb v newline).

(** Number of leading bytes of [rest] that are white space other than a
    newline. *)
Fixpoint spaces (rest : list byte) : nat :=
  match rest with
  | v :: rest' => if skippable v then S (spaces rest') else 0
  | [] => 0
  end.

(** The [for index, v := range line] loop; [rest] is [line[index:]]. *)
Fixpoint filterSymbols_range (line : list byte) (charset : string)
         (index : nat) (rest : list byte) : list byte :=
  match rest with
  | [] => line
  | v :: rest' =>
      if skippable v then filterSymbols_range line charset (S index) rest'
      else if (IndexByte charset v <? 0)%Z then line
      else if (index + 1 <? length line) && IsSpace (nth (index + 1) line x00) then
             if Byte.eqb (nth (index + 1) line x00) newline then [newline]
             else skipn (index + 1) line
           else line
  end.

Definition filterSymbols (line : list byte) (charset : string) : list byte :=
  if String.length charset =? 0 then line
  else filterSymbols_range line charset 0 line.

(** What [filterSymbols] does once its loop has reached the first byte it
    does not step over; [rest] starts at that byte. *)
Definition filtered (charset : string) (line rest : list byte) : list byte :=
  match rest with
  | v :: nx :: tl =>
      if (0 <=? IndexByte charset v)%Z && IsSpace nx
      then if Byte.eqb nx newline then [newline] else nx :: tl
      else line
  | _ => line
  end.

(** The line filter as the specification words it: leading white space is
    stepped over; a first character from the charset is dropped, together
    with one following space; a newline right after the marker leaves only
    the newline; nothing else is touched. *)
Fixpoint filterSymbols_spec_range (line : list byte) (charset : string)
         (skipped rest : list byte) : list byte :=
  match rest with
  | [] => line
  | v :: rest' =>
      if skippable v then filterSymbols_spec_range line charset (skipped ++ [v]) rest'
      else if (IndexByte charset v <? 0)%Z then line
      else match rest' with
           | nx :: rest'' =>
               if Byte.eqb nx newline then [newline]
               else if IsSpace nx then skipped ++ rest''
               else skipped ++ rest'
           | [] => skipped
           end
  end.

Definition filterSymbols_spec (line : list byte) (charset : string) : list byte :=
  if String.length charset =? 0 then line
  else filterSymbols_spec_range line charset [] line.

(** *** The lexer (lexer.go) *)

(** Lexer state: the decoded buffer and the cursor. *)
Record lexer : Type := mkLexer { data : list byte; pos : nat }.

Definition setPos (l : lexer) (p : nat) : lexer := mkLexer (data l) p.

(** Modelled from the spec: [lexer.atEOF] (lexer.go is not among the
    sources): the cursor is at or beyond the buffer length. *)
Definition atEOF (l : lexer) : bool := length (data l) <=? pos l.

(** Modelled from the spec: [lexer.match] (lexer.go is not among the
    sources): if the bytes at the cursor equal the token, advance past it and
    return true; otherwise leave the cursor untouched and return false. *)
Definition match_ (l : lexer) (word : string) : bool * lexer :=
  if HasPrefix (skipn (pos l) (data l)) (bytes word)
  then (true, setPos l (pos l + length (bytes word)))
  else (false, l).

(** Modelled from the spec: [lexer.skipSpace] (lexer.go is not among the
    sources): advance over white space, excluding the newline (the call in
    [endSComments] passes nothing that would allow it). *)
Definition skipSpace (l : lexer) : lexer :=
  setPos l (pos l + spaces (skipn (pos l) (data l))).

(** *** Block rules (block.go) *)

Inductive blockType : Type :=
| blockTypeString     (* a string literal, skipped *)
| blockTypeSComment   (* single-line comment *)
| blockTypeMComment.  (* multi-line comment *)

Record block : Type := mkBlock {
  Type_ : blockType;
  Begin : string;
  End_ : string;
  Escape : string
}.

(** What a loop of the lexer comes back with: the Go result and the lexer
    left behind, a run-time panic of an index expression, or an exhausted
    recursion budget (which never happens with the budget [EndFunc] gives,
    see [EndFunc_total]). *)
Inductive result (A : Type) : Type :=
| Ok (a : A) (l : lexer)
| IndexOutOfRange
| OutOfFuel.
Arguments Ok {A} a l.
Arguments IndexOutOfRange {A}.
Arguments OutOfFuel {A}.

(** The pair [([][]byte, bool)] of [EndFunc]; [None] is the nil slice. *)
Definition lines : Type := option (list (list byte)) * bool.

Definition BeginFunc (b : block) (l : lexer) : bool * lexer := match_ l (Begin b).

(** [endString]: one unfolding per iteration of the [for] loop. *)
Fixpoint endString (fuel : nat) (b : block) (l : lexer) : result lines :=
  match fuel with
  | 0 => OutOfFuel
  | S fuel' =>
      if atEOF l then Ok (None, false) l
      else
        let (esc, l1) :=
          if 0 <? String.length (Escape b) then match_ l (Escape b) else (false, l) in
        if esc then endString fuel' b (setPos l1 (pos l1 + 1))
        else
          let (fin, l2) := match_ l (End_ b) in
          if fin then Ok (None, true) l2
          else endString fuel' b (setPos l (pos l + 1))
  end.

(** How the inner loop of [endSComments] leaves a line. *)
Inductive lineEnd : Type :=
| LineEOF (l : lexer)       (* the buffer ended: [break LOOP] *)
| LineNL (l : lexer)        (* a newline was read: [break] *)
| LinePanic                 (* [l.data[l.pos]] out of range *)
| LineFuel.

(** The inner [for] of [endSComments]: read one line. *)
Fixpoint readLine (fuel : nat) (l : lexer) : lineEnd :=
  match fuel with
  | 0 => LineFuel
  | S fuel' =>
      match nth_error (data l) (pos l) with
      | None => LinePanic
      | Some r =>
          let l' := setPos l (pos l + 1) in
          if atEOF l' then LineEOF l'
          else if Byte.eqb r newline then LineNL l'
          else readLine fuel' l'
      end
  end.

(** The statements after the loops of [endSComments]. *)
Definition endSComments_return (ls : list (list byte)) (l : lexer) : result lines :=
  let l' := if 0 <? length ls then setPos l (pos l - 1) else l in
  Ok (Some ls, true) l'.

(** [endSComments]: one unfolding per iteration of the [LOOP] loop; [ls] is
    the slice [lines] built so far. *)
Fixpoint endSComments (fuel : nat) (b : block) (l : lexer)
         (ls : list (list byte)) : result lines :=
  match fuel with
  | 0 => OutOfFuel
  | S fuel' =>
      let start := pos l in
      match readLine fuel l with
      | LinePanic => IndexOutOfRange
      | LineFuel => OutOfFuel
      | LineEOF l1 =>
          endSComments_return (ls ++ [slice (data l1) start (pos l1)]) l1
      | LineNL l1 =>
          let ls' := ls ++ [filterSymbols (slice (data l1) start (pos l1)) (Escape b)] in
          let (again, l2) := match_ (skipSpace l1) (Begin b) in
          if again then endSComments fuel' b l2 ls'
          else endSComments_return ls' l2
      end
  end.

(** [endMComments]: one unfolding per iteration of the [for] loop; [start]
    is the local [start], [ls] the slice [lines]. *)
Fixpoint endMComments (fuel : nat) (b : block) (l : lexer) (start : nat)
         (ls : list (list byte)) : result lines :=
  match fuel with
  | 0 => OutOfFuel
  | S fuel' =>
      if atEOF l then Ok (None, false) l
      else
        let (fin, l1) := match_ l (End_ b) in
        if fin then
          let p := pos l1 - String.length (End_ b) in
          if start <? p
          then Ok (Some (ls ++ [filterSymbols (slice (data l1) start p) (Escape b)]), true) l1
          else Ok (Some ls, true) l1
        else
          match nth_error (data l) (pos l) with
          | None => IndexOutOfRange
          | Some r =>
              let l' := setPos l (pos l + 1) in
              if Byte.eqb r newline
              then endMComments fuel' b l' (pos l')
                     (ls ++ [filterSymbols (slice (data l') start (pos l')) (Escape b)])
              else endMComments fuel' b l' start ls
          end
  end.

(** The token [word] stands at offset [p] of [buf]. *)
Definition occurs (word : string) (buf : list byte) (p : nat) : bool :=
  HasPrefix (skipn p buf) (bytes word).

(** The recursion budget of a scan starting at [l]: every iteration of the
    loops above moves the cursor forward by at least one byte. *)
Definition budget (l : lexer) : nat := S (length (data l) - pos l).

(** [block.EndFunc]: the [switch] over [b.Type]. *)
Definition EndFunc (b : block) (l : lexer) : result lines :=
  match Type_ b with
  | blockTypeString => endString (budget l) b l
  | blockTypeMComment => endMComments (budget l) b l (pos l) []
  | blockTypeSComment => endSComments (budget l) b l []
  end.

(** What [endString] comes back with: nothing for content; [true] exactly
    when [End] was matched at some offset at or after the entry, the cursor
    right behind it; [false] with the cursor at the end of the buffer. *)
Definition endString_post (b : block) (l : lexer) (r : result lines) : Prop :=
  exists fin l', r = Ok (None, fin) l' /\ data l' = data l /\
    if fin
    then exists p, pos l <= p < length (data l) /\ occurs (End_ b) (data l) p = true /\
                   pos l' = p + length (bytes (End_ b))
    else atEOF l' = true.

(** What [endMComments] comes back with: nil and [false] with the cursor at
    the end of the buffer, or the lines and [true] with the cursor right
    behind an [End] matched at or after the entry. *)
Definition endMComments_post (b : block) (l : lexer) (r : result lines) : Prop :=
  exists l', data l' = data l /\
    ((r = Ok (None, false) l' /\ atEOF l' = true) \/
     (exists ls p, r = Ok (Some ls, true) l' /\
                   pos l <= p < length (data l) /\
                   occurs (End_ b) (data l) p = true /\
                   pos l' = p + length (bytes (End_ b)))).

(** One continuation of [endSComments]: from the start of a line, the line
    ends in a newline before the end of the buffer and, after the white
    space that follows, [Begin] matches again; [l'] is where the next line
    starts. *)
Definition continues (b : block) (l l' : lexer) : Prop :=
  exists l1, readLine (budget l) l = LineNL l1 /\
             match_ (skipSpace l1) (Begin b) = (true, l').

(** The cursor states at which [endSComments], entered at [l], starts to
    read a line: [l] itself and the state after every continuation. *)
Inductive lineStart (b : block) : lexer -> lexer -> Prop :=
| lineStart_entry l : lineStart b l l
| lineStart_probe l l1 l' : continues b l l1 -> lineStart b l1 l' -> lineStart b l l'.

End Lang.

(** ** message, locale *)

(** The locale keys the embedded code passes to its error constructors. *)
Inductive localeKey : Type :=
| ErrRequired
| ErrInvalidValue
| ErrDuplicateValue.

(** [message.SyntaxError]: the structured error record. *)
Record SyntaxError : Type := mkSyntaxError {
  File : string;
  Field : string;
  Line : Z;
  Message : localeKey
}.

(** [message.NewError(file, field, line, key)]. *)
Definition NewError (file field : string) (line : Z) (key : localeKey) : SyntaxError :=
  mkSyntaxError file field line key.

Definition setField (e : SyntaxError) (f : string) : SyntaxError :=
  mkSyntaxError (File e) f (Line e) (Message e).

(** [strconv.Itoa] on a slice index. *)
Definition Itoa (n : nat) : string := DecimalString.NilZero.string_of_uint (Nat.to_uint n).

(** ** input *)

Module Input.

(** A comment block handed over by the scanner. *)
Record block : Type := mkBlock {
  File : string;
  Line : Z;
  Data : list byte
}.

Definition apidocBegin : list byte := bytes "<apidoc".
Definition apiBegin : list byte := bytes "<api".

(** The message types of [message]; only [Erro] is used here. *)
Inductive msgType : Type := Erro | Warn | Info | Succ.

Section ParseBlock.

(** The collaborators of [parseBlock] that live in other packages:
    the document with its two XML entry points, the error values they
    return ([None] is Go's nil error), [message.WithError] and the
    handler's [Error] method. *)
Variables (Doc error Handler : Type).
Variable FromXML : Doc -> list byte -> Doc * option error.
Variable NewAPI_FromXML : Doc -> string -> Z -> list byte -> Doc * option error.
Variable WithError : string -> string -> Z -> option error -> error.
Variable Handler_Error : Handler -> msgType -> error -> Handler.

(** [parseBlock]: the [switch] leaves [err] nil when no case applies; the
    call of [h.Error] after it is not guarded. *)
Definition parseBlock (d : Doc) (blk : block) (h : Handler) : Doc * Handler :=
  let (d', err) :=
    if HasPrefix (Data blk) apidocBegin then FromXML d (Data blk)
    else if HasPrefix (Data blk) apiBegin
         then NewAPI_FromXML d (File blk) (Line blk) (Data blk)
         else (d, None) in
  (d', Handler_Error h Erro (WithError (File blk) "" (Line blk) err)).

End ParseBlock.

(** An error value as the handler sees it: an error of the XML entry points,
    or the record [message.WithError] builds around a cause ([None] for
    nil). *)
#[local] Unset Elimination Schemes.
Inductive report : Type :=
| XMLError (msg : string)
| WithErr (file field : string) (line : Z) (cause : option report).
#[local] Set Elimination Schemes.

(** A handler that keeps what it is handed, in order of arrival. *)
Definition logHandler : Type := list (msgType * report).

Definition logError (h : logHandler) (t : msgType) (e : report) : logHandler :=
  h ++ [(t, e)].

Section BuildBlock.

(** [input.Options] and its [Sanitize] method are declared in a file that
    is not among the sources: [Sanitize] either fails or leaves the
    (completed) option behind. A nil pointer in [opt] is [None]. *)
Variable Options : Type.
Variable Sanitize : Options -> SyntaxError + Options.

(** What [buildBlock] sets going: the goroutine that scans the files of
    the options and feeds the channel. *)
Inductive event : Type :=
| GoScan (opts : list Options).

(** The channel [buildBlock] returns, named by the options feeding it. *)
Inductive channel : Type :=
| Chan (capacity : nat) (opts : list Options).

(** The [for index, item := range opt] loop; [done] holds the options
    already sanitized (in reverse). *)
Fixpoint checkOptions (index : nat) (opt : list (option Options))
         (done : list Options) : SyntaxError + list Options :=
  match opt with
  | [] => inr (rev done)
  | item :: opt' =>
      let field := ("opt[" ++ Itoa index ++ "]")%string in
      match item with
      | None => inl (NewError "" field 0 ErrRequired)
      | Some o =>
          match Sanitize o with
          | inl err => inl (setField err (field ++ "." ++ Field err)%string)
          | inr o' => checkOptions (S index) opt' (o' :: done)
          end
      end
  end.

(** An option that passes the loop: not nil, and [Sanitize] has no error. *)
Definition optionOK (item : option Options) : bool :=
  match item with
  | Some o => match Sanitize o with inr _ => true | inl _ => false end
  | None => false
  end.

(** The error the loop returns for the option at [index]. *)
Definition optionError (index : nat) (item : option Options) : SyntaxError :=
  let field := ("opt[" ++ Itoa index ++ "]")%string in
  match item with
  | Some o =>
      match Sanitize o with
      | inl err => setField err (field ++ "." ++ Field err)%string
      | inr _ => NewError "" field 0 ErrRequired
      end
  | None => NewError "" field 0 ErrRequired
  end.

(** [buildBlock]: the events it causes and its two results. *)
Definition buildBlock (opt : list (option Options))
  : list event * (option channel * option SyntaxError) :=
  if length opt =? 0 then ([], (None, Some (NewError "" "opt" 0 ErrRequired)))
  else match checkOptions 0 opt [] with
       | inl err => ([], (None, Some err))
       | inr opts => ([GoScan opts], (Some (Chan 500 opts), None))
       end.

(** [Parse], with everything after the check of [buildBlock]'s error (the
    draining of the channel into a document) as [drain]. *)
Definition Parse {Doc : Type} (drain : option channel -> Doc)
           (opt : list (option Options))
  : list event * (option Doc * option SyntaxError) :=
  let '(evs, (blocks, err)) := buildBlock opt in
  match err with
  | Some e => (evs, (None, Some e))
  | None => (evs, (Some (drain blocks), None))
  end.

End BuildBlock.

Arguments GoScan {Options}.
Arguments Chan {Options}.

End Input.

(** ** doc *)

Module Doc.

(** [doc.Type]: the values the sources name. *)
Inductive Type_ : Type := None_ | Bool | Object | Number | String_.

Definition Type_eqb (a b : Type_) : bool :=
  match a, b with
  | None_, None_ | Bool, Bool | Object, Object | Number, Number | String_, String_ => true
  | _, _ => false
  end.

Record Enum : Type := mkEnum { Value : string; EDescription : string }.

(** [doc.Param], with the fields the sources use. *)
#[local] Unset Elimination Schemes.
Inductive Param : Type := mkParam {
  Name : string;
  PType : Type_;
  PArray : bool;
  PItems : list Param;
  PEnums : list Enum
}.
#[local] Set Elimination Schemes.

(** [doc.Request] (request.go); the fields whose types are declared
    elsewhere (Deprecated, Status, Examples, Headers) are left out, no check
    below reads them. *)
Record Request : Type := mkRequest {
  RType : Type_;
  Enums : list Enum;
  Array : bool;
  Items : list Param;
  Reference : string;
  Summary : string;
  Mimetype : string;
  Description : string
}.

(** Modelled from the spec: [getDuplicateEnum] and [getDuplicateItems]
    (declared in a file that is not among the sources) hand back a value
    that occurs more than once among the keys, and the empty string when
    there is none; [Request.UnmarshalXML] reads the empty string as
    "no duplicate". The first key that occurs again further on is taken. *)
Fixpoint getDuplicate (keys : list string) : string :=
  match keys with
  | [] => ""
  | k :: keys' => if existsb (String.eqb k) keys' then k else getDuplicate keys'
  end.

Definition getDuplicateEnum (enums : list Enum) : string := getDuplicate (map Value enums).
Definition getDuplicateItems (items : list Param) : string := getDuplicate (map Name items).

Section Unmarshal.

(** The error of [xml.Decoder.DecodeElement]. *)
Variable decodeError : Type.

(** The errors of the [UnmarshalXML] methods: [fixedSyntaxError] around a
    decoder error, or [newSyntaxError] with a field path and a message. *)
Inductive xmlError : Type :=
| fixedSyntaxError (cause : decodeError) (file field : string) (line : Z)
| newSyntaxError (field : string) (key : localeKey).

(** [Request.UnmarshalXML]: [local] is [start.Name.Local], [decoded] what
    [d.DecodeElement(&shadow, &start)] produced; the result is the new
    value of [*r] and the error. *)
Definition Request_UnmarshalXML (r : Request) (local : string)
           (decoded : decodeError + Request) : Request * option xmlError :=
  let field := ("/" ++ local)%string in
  match decoded with
  | inl err => (r, Some (fixedSyntaxError err "" field 0))
  | inr shadow =>
      if Type_eqb (RType shadow) None_
      then (r, Some (newSyntaxError (field ++ "#type") ErrRequired))
      else if Type_eqb (RType shadow) Object && (length (Items shadow) =? 0)
      then (r, Some (newSyntaxError (field ++ "/item") ErrRequired))
      else if String.eqb (Mimetype shadow) ""
      then (r, Some (newSyntaxError (field ++ "#mimetype") ErrRequired))
      else if negb (String.eqb (getDuplicateEnum (Enums shadow)) "")
      then (r, Some (newSyntaxError (field ++ "/enum") ErrDuplicateValue))
      else if negb (String.eqb (getDuplicateItems (Items shadow)) "")
      then (r, Some (newSyntaxError (field ++ "/item") ErrDuplicateValue))
      else (shadow, None)
  end.

Definition SchemaHTTP : string := "HTTP".
Definition SchemaHTTPS : string := "HTTPS".

(** [doc.Callback] (callback.go), without the Deprecated field. *)
Record Callback : Type := mkCallback {
  Schema : string;
  CSummary : string;
  CDescription : string;
  Method : string;
  Queries : list Param;
  CReference : string;
  Responses : list Request;
  Requests : list Request
}.

(** Go's [strings.ToUpper]. *)
Variable ToUpper : string -> string.

(** [Callback.UnmarshalXML]: the decoder writes into [*c] itself
    ([shadow] aliases [c]), so what it leaves behind is the new value of
    [*c], whatever the checks say and also when it fails.  [decoded] is the
    outcome of [d.DecodeElement(shadow, &start)] run on [*c]: the decoded
    value, or the error together with what [*c] holds by then. *)
Definition Callback_UnmarshalXML (c : Callback) (local : string)
           (decoded : decodeError * Callback + Callback) : Callback * option xmlError :=
  let field := ("/" ++ local)%string in
  match decoded with
  | inl (err, partial) => (partial, Some (fixedSyntaxError err "" field 0))
  | inr shadow =>
      if String.eqb (Method shadow) ""
      then (shadow, Some (newSyntaxError (field ++ "#method") ErrRequired))
      else
        let schema := ToUpper (Schema shadow) in
        if negb (String.eqb schema SchemaHTTP) && negb (String.eqb schema SchemaHTTPS)
        then (shadow, Some (newSyntaxError (field ++ "#schema") ErrInvalidValue))
        else if length (Requests shadow) =? 0
        then (shadow, Some (newSyntaxError (field ++ "/request") ErrRequired))
        else (shadow, None)
  end.

End Unmarshal.

Arguments fixedSyntaxError {decodeError}.
Arguments newSyntaxError {decodeError}.

(** [strings.ToUpper] on a string of ASCII bytes: the letters a-z go to A-Z,
    every other byte stays.  (Outside ASCII [strings.ToUpper] maps further
    letters; the properties below take any [ToUpper], and this one serves
    the examples, which are ASCII.) *)
Definition upperASCII (c : ascii) : ascii :=
  let n := nat_of_ascii c in
  if (97 <=? n) && (n <=? 122) then ascii_of_nat (n - 32) else c.

Fixpoint ToUpperASCII (s : string) : string :=
  match s with
  | EmptyString => EmptyString
  | String c s' => String (upperASCII c) (ToUpperASCII s')
  end.

(** Two strings of the same length whose bytes agree up to the case of
    ASCII letters. *)
Fixpoint sameFoldASCII (s t : string) : bool :=
  match s, t with
  | EmptyString, EmptyString => true
  | String c s', String d t' =>
      Ascii.eqb (upperASCII c) (upperASCII d) && sameFoldASCII s' t'
  | _, _ => false
  end.

End Doc.

(** ** mock *)

Module Mock.
Import Doc.

(** A decoded JSON value ([encoding/json] does the decoding). *)
#[local] Unset Elimination Schemes.
Inductive json : Type :=
| JNull
| JBool (b : bool)
| JNumber (n : Z)
| JString (s : string)
| JArray (elems : list json)
| JObject (fields : list (string * json)).
#[local] Set Elimination Schemes.

(** The error of the validator: the kind and the path of the offending node. *)
Inductive validError : Type :=
| TypeMismatch (path : list string)
| UnknownField (path : list string).

(** The declared item called [name], the first one if there are several. *)
Fixpoint findItem (name : string) (items : list Param) : option Param :=
  match items with
  | [] => None
  | q :: items' => if String.eqb (Name q) name then Some q else findItem name items'
  end.

(** Modelled from the spec: [jsonValidator.find] (mock/json.go is not among
    the sources; its test is).  The lookup follows the field-name segments
    from the root, one declared Item per segment, whatever the Array flag of
    the Param it passes through; a segment that names no Item gives "not
    found".  An empty segment is a segment like any other, as
    [TestJSONValidator_find] asserts ([names = {""}] gives nil). *)
Fixpoint find (param : Param) (names : list string) : option Param :=
  match names with
  | [] => Some param
  | name :: names' =>
      match findItem name (PItems param) with
      | Some q => find q names'
      | None => None
      end
  end.

(** Modelled from the spec: [validJSON] (mock/json.go is not among the
    sources).  An Array-flagged Param wants an array whose elements each
    satisfy the Param with the flag cleared; an Object wants an object whose
    fields each name a declared Item and satisfy it (missing Items are
    tolerated, unknown fields are not); any other type wants the matching
    kind of value.  [array] is the Array flag in force. *)
Fixpoint validJSON_at (path : list string) (p : Param) (array : bool) (v : json)
         {struct v} : option validError :=
  if array then
    match v with
    | JArray elems =>
        (fix each (es : list json) : option validError :=
           match es with
           | [] => None
           | e :: es' =>
               match validJSON_at path p false e with
               | Some err => Some err
               | None => each es'
               end
           end) elems
    | _ => Some (TypeMismatch path)
    end
  else
    match PType p, v with
    | None_, JNull => None
    | Bool, JBool _ => None
    | Number, JNumber _ => None
    | String_, JString _ => None
    | Object, JObject fields =>
        (fix each (fs : list (string * json)) : option validError :=
           match fs with
           | [] => None
           | (k, fv) :: fs' =>
               match findItem k (PItems p) with
               | None => Some (UnknownField (path ++ [k]))
               | Some q =>
                   match validJSON_at (path ++ [k]) q (PArray q) fv with
                   | Some err => Some err
                   | None => each fs'
                   end
               end
           end) fields
    | _, _ => Some (TypeMismatch path)
    end.

Definition validJSON (p : Param) (v : json) : option validError :=
  validJSON_at [] p (PArray p) v.

(** Modelled from the spec: [buildJSON] (mock/json.go is not among the
    sources).  Every primitive type has one fixed literal, an Object gets
    one field per declared Item in declaration order, an Array repeats the
    value a fixed number of times; the literals and the count are those of
    [jsonTestData]. *)
Definition arrayCount : nat := 5.

Fixpoint buildJSON (p : Param) : json :=
  match p with
  | mkParam _ ty array items _ =>
      let value :=
        match ty with
        | None_ => JNull
        | Bool => JBool true
        | Number => JNumber 1024
        | String_ => JString "1024"
        | Object => JObject (map (fun q => (Name q, buildJSON q)) items)
        end in
      if array then JArray (repeat value arrayCount) else value
  end.

(** The invariants of a Param tree: an Object has at least one Item, only an
    Object has Items, and the names of sibling Items are distinct; all the
    way down. *)
#[local] Unset Elimination Schemes.
Inductive WellFormed : Param -> Prop :=
| WellFormed_intro name ty array items enums :
    (ty = Object <-> items <> []) ->
    NoDup (map Name items) ->
    Forall WellFormed items ->
    WellFormed (mkParam name ty array items enums).
#[local] Set Elimination Schemes.

(** A Param without Items. *)
Definition leaf (name : string) (ty : Type_) : Param := mkParam name ty false [] [].

(** The last entry of [jsonTestData], as a Param: an object with a nested
    object that holds an array of objects. *)

Definition testTags : Param :=
  mkParam "tags" Object true [leaf "name" String_; leaf "id" Number] [].

Definition testGroup : Param :=
  mkParam "group" Object false [leaf "name" String_; leaf "id" Number; testTags] [].

Definition testParam : Param :=
  mkParam "" Object false [leaf "name" String_; leaf "id" Number; testGroup] [].

(** The other trees of [jsonTestData] (as Params) and the values their
    [Data] decode to. *)
Definition testObject : Param :=
  mkParam "" Object false [leaf "name" String_; leaf "id" Number] [].

Definition testBools : Param := mkParam "" Bool true [] [].

Definition testObjectData : json :=
  JObject [("name", JString "1024"); ("id", JNumber 1024)].

Definition testParamData : json :=
  JObject [("name", JString "1024"); ("id", JNumber 1024);
           ("group", JObject [("name", JString "1024"); ("id", JNumber 1024);
                              ("tags", JArray (repeat testObjectData 5))])].

End Mock.

(** ** Reference functions for the block rules

    Not part of the sources: the vocabulary in which the results of the
    block rules are stated (first occurrence of a token, a text cut into
    lines). *)

Module Text.

(** Offset of the first place at or after [p] where [w] stands in the
    buffer whose bytes from [p] on are [rest]. *)
Fixpoint firstOccurrence_in (w rest : list byte) (p : nat) : option nat :=
  match rest with
  | [] => None
  | _ :: rest' => if HasPrefix rest w then Some p else firstOccurrence_in w rest' (S p)
  end.

Definition firstOccurrence (word : string) (buf : list byte) (from : nat) : option nat :=
  firstOccurrence_in (bytes word) (skipn from buf) from.

(** [body] cut behind each of its newlines; [cur] is the piece begun so far;
    a last piece without a newline is kept unless it is empty. *)
Fixpoint splitLines_from (cur body : list byte) : list (list byte) :=
  match body with
  | [] => match cur with [] => [] | _ => [cur] end
  | c :: body' =>
      if Byte.eqb c newline then (cur ++ [c]) :: splitLines_from [] body'
      else splitLines_from (cur ++ [c]) body'
  end.

Definition splitLines (body : list byte) : list (list byte) := splitLines_from [] body.

(** The line ends with a newline. *)
Definition endsWithNewline (line : list byte) : Prop := exists body, line = body ++ [newline].

End Text.

(** What [endSComments] returns when it returns: at least one line, every
    line but the last with its newline, the cursor inside the buffer and not
    before the entry. *)
Definition endSComments_shape (l : Lang.lexer) (earlier : list (list byte))
           (r : Lang.result Lang.lines) : Prop :=
  match r with
  | Lang.Ok (ls, ok) l' =>
      ok = true /\
      (exists more last, ls = Some (earlier ++ more ++ [last]) /\
                         Forall Text.endsWithNewline more /\ last <> []) /\
      Lang.data l' = Lang.data l /\ Lang.pos l <= Lang.pos l' < length (Lang.data l)
  | Lang.IndexOutOfRange => True
  | Lang.OutOfFuel => True
  end.

(** ** openapi (path.go) *)

Module OpenAPI.

(** [message.NewLocaleError(file, field, line, key)]. *)
Definition NewLocaleError (file field : string) (line : Z) (key : localeKey) : SyntaxError :=
  mkSyntaxError file field line key.

(** A Go map with string keys, as the entries in the order a [range] over it
    visits them.  Go leaves that order open, so every order of the same
    entries is a possible run.  The values are pointers in the sources; they
    are taken not to be nil here. *)
Definition gomap (V : Type) : Type := list (string * V).

Section Range.

Variable V : Type.
Variable label : string.
Variable sanitize : V -> option SyntaxError.

(** The loop the sanitize methods share:
    [for key, v := range m { if err := v.sanitize(); err != nil {
       err.Field = label + "[" + key + "]." + err.Field; return err } }]. *)
Fixpoint rangeSanitize (m : gomap V) : option SyntaxError :=
  match m with
  | [] => None
  | (key, v) :: m' =>
      match sanitize v with
      | Some err => Some (setField err (label ++ "[" ++ key ++ "]." ++ Field err)%string)
      | None => rangeSanitize m'
      end
  end.

End Range.

Section Sanitize.

(** The types of the package declared in other files, with their sanitize
    methods. *)
Variables Header Link Schema Style : Type.
Variable Header_sanitize : Header -> option SyntaxError.
Variable Link_sanitize : Link -> option SyntaxError.
Variable Schema_sanitize : Schema -> option SyntaxError.
Variable Style_sanitize : Style -> option SyntaxError.

(** [Encoding]: the embedded Style and the fields [sanitize] reads. *)
Record Encoding : Type := mkEncoding {
  EStyle : Style;
  ContentType : string;
  EHeaders : gomap Header
}.

Record MediaType : Type := mkMediaType {
  MSchema : option Schema;
  MEncoding : gomap Encoding
}.

Record RequestBody : Type := mkRequestBody {
  BDescription : string;
  BContent : gomap MediaType;
  BRequired : bool;
  BRef : string
}.

Record Response : Type := mkResponse {
  Description : string;
  Headers : gomap Header;
  Content : gomap MediaType;
  Links : gomap Link;
  Ref : string
}.

(** [Operation] and [PathItem] ([Callback] is [PathItem]), with the fields
    the sanitize methods read. *)
#[local] Unset Elimination Schemes.
Inductive Operation : Type :=
| mkOperation (requestBody : option RequestBody) (responses : gomap Response)
              (callbacks : gomap PathItem)
with PathItem : Type :=
| mkPathItem (get put post delete options head patch trace : option Operation).
#[local] Set Elimination Schemes.

Definition Responses (o : Operation) : gomap Response :=
  match o with mkOperation _ responses _ => responses end.
Definition Callbacks (o : Operation) : gomap PathItem :=
  match o with mkOperation _ _ callbacks => callbacks end.
Definition RequestBody_ (o : Operation) : option RequestBody :=
  match o with mkOperation requestBody _ _ => requestBody end.

(** [err.Field = prefix + err.Field; return err], when there is an error. *)
Definition withPrefix (prefix : string) (r : option SyntaxError) : option SyntaxError :=
  match r with
  | Some err => Some (setField err (prefix ++ Field err)%string)
  | None => None
  end.

Definition Encoding_sanitize (en : Encoding) : option SyntaxError :=
  match Style_sanitize (EStyle en) with
  | Some err => Some err
  | None => rangeSanitize Header "headers" Header_sanitize (EHeaders en)
  end.

Definition MediaType_sanitize (mt : MediaType) : option SyntaxError :=
  match match MSchema mt with
        | Some s => withPrefix "schema." (Schema_sanitize s)
        | None => None
        end with
  | Some err => Some err
  | None => rangeSanitize Encoding "encoding" Encoding_sanitize (MEncoding mt)
  end.

Definition Response_sanitize (resp : Response) : option SyntaxError :=
  if String.eqb (Description resp) ""
  then Some (NewLocaleError "" "description" 0 ErrRequired)
  else
    match rangeSanitize Header "headers" Header_sanitize (Headers resp) with
    | Some err => Some err
    | None =>
        match rangeSanitize MediaType "content" MediaType_sanitize (Content resp) with
        | Some err => Some err
        | None => rangeSanitize Link "links" Link_sanitize (Links resp)
        end
    end.

Definition RequestBody_sanitize (req : RequestBody) : option SyntaxError :=
  if length (BContent req) =? 0
  then Some (NewLocaleError "" "content" 0 ErrRequired)
  else rangeSanitize MediaType "content" MediaType_sanitize (BContent req).

(** The [switch] of [PathItem.sanitize]: the first operation that is not nil,
    with its method. *)
Definition firstOperation (path : PathItem) : option (Operation * string) :=
  match path with
  | mkPathItem get put post delete options head patch trace =>
      match get, put, post, delete, options, head, patch, trace with
      | Some o, _, _, _, _, _, _, _ => Some (o, "GET")
      | _, Some o, _, _, _, _, _, _ => Some (o, "PUT")
      | _, _, Some o, _, _, _, _, _ => Some (o, "POST")
      | _, _, _, Some o, _, _, _, _ => Some (o, "DELETE")
      | _, _, _, _, Some o, _, _, _ => Some (o, "OPTIONS")
      | _, _, _, _, _, Some o, _, _ => Some (o, "HEAD")
      | _, _, _, _, _, _, Some o, _ => Some (o, "PATCH")
      | _, _, _, _, _, _, _, Some o => Some (o, "TRACE")
      | _, _, _, _, _, _, _, _ => None
      end
  end.

Fixpoint Operation_sanitize (o : Operation) : option SyntaxError :=
  match o with
  | mkOperation requestBody responses callbacks =>
      if length responses =? 0
      then Some (NewLocaleError "" "responses" 0 ErrRequired)
      else
        match rangeSanitize Response "responses" Response_sanitize responses with
        | Some err => Some err
        | None =>
            match rangeSanitize PathItem "callbacks" PathItem_sanitize callbacks with
            | Some err => Some err
            | None =>
                match requestBody with
                | Some req => withPrefix "request." (RequestBody_sanitize req)
                | None => None
                end
            end
        end
  end
with PathItem_sanitize (path : PathItem) : option SyntaxError :=
  match path with
  | mkPathItem get put post delete options head patch trace =>
      let check (method : string) (o : option SyntaxError) :=
        withPrefix (method ++ ".") o in
      match get, put, post, delete, options, head, patch, trace with
      | Some o, _, _, _, _, _, _, _ => check "GET" (Operation_sanitize o)
      | _, Some o, _, _, _, _, _, _ => check "PUT" (Operation_sanitize o)
      | _, _, Some o, _, _, _, _, _ => check "POST" (Operation_sanitize o)
      | _, _, _, Some o, _, _, _, _ => check "DELETE" (Operation_sanitize o)
      | _, _, _, _, Some o, _, _, _ => check "OPTIONS" (Operation_sanitize o)
      | _, _, _, _, _, Some o, _, _ => check "HEAD" (Operation_sanitize o)
      | _, _, _, _, _, _, Some o, _ => check "PATCH" (Operation_sanitize o)
      | _, _, _, _, _, _, _, Some o => check "TRACE" (Operation_sanitize o)
      | _, _, _, _, _, _, _, _ => Some (NewLocaleError "" "operation" 0 ErrRequired)
      end
  end.

End Sanitize.
End OpenAPI.

(** ** parser (the block parser that writes OpenAPI documents) *)

Module Parser.

Section Parser.

(** What the package takes from elsewhere: the two prefixes ([vars.API],
    [vars.APIDoc]) and the default group name, the document type with the
    empty document [&openapi.OpenAPI{}], the [api] and [Info] structures with
    their [Group], [API] and [Title] fields, [yaml.Unmarshal] into a fresh
    [api] or [Info], and the methods [parseAPI] and [parseInfo] of [doc]. *)
Variables apiPrefix apiDocPrefix : list byte.
Variable DefaultGroupName : string.
Variables OpenAPIDoc api Info error : Type.
Variable emptyDoc : OpenAPIDoc.
Variable api_Group : api -> string.
Variable api_setAPI : api -> string -> api.
Variable Info_Group : Info -> string.
Variable Info_setTitle : Info -> string -> Info.
Variable yaml_api : list byte -> error + api.
Variable yaml_Info : list byte -> error + Info.
Variable parseAPI : OpenAPIDoc -> api -> OpenAPIDoc * option error.
Variable parseInfo : OpenAPIDoc -> Info -> OpenAPIDoc * option error.

(** [parser]: the map [docs], as its entries (one per key), and what
    [getDoc] has printed on standard output so far (each line shows the map
    of that moment). *)
Record parser : Type := mkParser {
  docs : list (string * OpenAPIDoc);
  stdout : list (list (string * OpenAPIDoc))
}.

(** [p.docs[group]]. *)
Fixpoint lookup (group : string) (m : list (string * OpenAPIDoc)) : option OpenAPIDoc :=
  match m with
  | [] => None
  | (k, d) :: m' => if String.eqb k group then Some d else lookup group m'
  end.

(** [p.docs[group] = d]. *)
Fixpoint store (group : string) (d : OpenAPIDoc) (m : list (string * OpenAPIDoc))
  : list (string * OpenAPIDoc) :=
  match m with
  | [] => [(group, d)]
  | (k, d') :: m' =>
      if String.eqb k group then (k, d) :: m' else (k, d') :: store group d m'
  end.

(** The key [getDoc] works with. *)
Definition groupName (group : string) : string :=
  if String.eqb group "" then DefaultGroupName else group.

(** [getDoc]: the parser afterwards and the document found or made. *)
Definition getDoc (p : parser) (group : string) : parser * OpenAPIDoc :=
  let group := groupName group in
  let (m, d) :=
    match lookup group (docs p) with
    | Some d => (docs p, d)
    | None => (store group emptyDoc (docs p), emptyDoc)
    end in
  (mkParser m (stdout p ++ [m]), d).

(** [bytes.IndexByte(data, c)]. *)
Definition bytes_IndexByte (data : list byte) (c : byte) : Z := IndexByte_from 0 data c.

(** How [parse] ends: it returns (the parser afterwards and the error), or
    the slice expression [data[:index]] panics. *)
Inductive outcome : Type :=
| Returned (p : parser) (err : option error)
| SliceBoundsPanic.

(** [d := p.getDoc(group); err := d.parseX(x)], the document being changed
    in place. *)
Definition inDoc {X : Type} (p : parser) (group : string)
           (parseX : OpenAPIDoc -> X -> OpenAPIDoc * option error) (x : X) : outcome :=
  let (p', d) := getDoc p group in
  let (d', err) := parseX d x in
  Returned (mkParser (store (groupName group) d' (docs p')) (stdout p')) err.

(** [parser.parse]. *)
Definition parse (p : parser) (data : list byte) : outcome :=
  if HasPrefix data apiPrefix then
    let index := bytes_IndexByte data newline in
    if (index <? 0)%Z then SliceBoundsPanic
    else
      let line := firstn (Z.to_nat index) data in
      let data := skipn (Z.to_nat (index + 1)) data in
      match yaml_api data with
      | inl err => Returned p (Some err)
      | inr a => inDoc p (api_Group a) parseAPI (api_setAPI a (string_of_list_byte line))
      end
  else if HasPrefix data apiDocPrefix then
    let index := bytes_IndexByte data newline in
    if (index <? 0)%Z then SliceBoundsPanic
    else
      let line := firstn (Z.to_nat index) data in
      let data := skipn (Z.to_nat (index + 1)) data in
      match yaml_Info data with
      | inl err => Returned p (Some err)
      | inr info =>
          inDoc p (Info_Group info) parseInfo (Info_setTitle info (string_of_list_byte line))
      end
  else Returned p None.

End Parser.

End Parser.

(** ** cmd/apidoc (main.go) *)

Module Main.

Section Main.

(** What [main.go] calls in other packages: [filepath.Abs], [config.Load],
    [config.Write], [apidoc.Do] and [input.Parse] (of which only the error is
    used), and the output path of a configuration. *)
Variables error Config : Type.
Variable Abs : string -> error + string.
Variable Load : string -> error + Config.
Variable Write : string -> option error.
Variable Do : Config -> option error.
Variable InputParse : Config -> option error.
Variable OutputPath : Config -> string.

(** The [for index, path := range paths] loop of [getPaths]. *)
Fixpoint absAll (paths : list string) : error + list string :=
  match paths with
  | [] => inr []
  | path :: rest =>
      match Abs path with
      | inl err => inl err
      | inr path' =>
          match absAll rest with
          | inl err => inl err
          | inr rest' => inr (path' :: rest')
          end
      end
  end.

(** [getPaths]; [args] is [flag.Args()]. *)
Definition getPaths (args : list string) : error + list string :=
  absAll (if length args =? 0 then args ++ ["./"] else args).

(** What [parse] and [detect] themselves do that can be seen from outside:
    the calls they make into the other packages, their calls of the
    handler's methods ([parse]) and the lines they write to the terminal
    ([detect]).  (The elapsed time the Complete message carries is left
    out.) *)
Inductive event : Type :=
| CallLoad (path : string)
| CallDo (cfg : Config)
| CallParse (cfg : Config)
| CallWrite (dir : string)
| HError (err : error)
| HComplete (outputPath : string)
| HTestSuccess
| HStop
| TermError (err : error)
| TermWriteSuccess (dir : string).

(** One round of the [for _, path := range paths] loop of [parse]. *)
Definition parsePath (test : bool) (path : string) : list event :=
  CallLoad path ::
  match Load path with
  | inl err => [HError err]
  | inr cfg =>
      if test then
        CallDo cfg ::
        match Do cfg with
        | Some err => [HError err]
        | None => [HComplete (OutputPath cfg)]
        end
      else
        CallParse cfg ::
        match InputParse cfg with
        | Some err => [HError err]
        | None => [HTestSuccess]
        end
  end.

Fixpoint parseLoop (test : bool) (paths : list string) : list event :=
  match paths with
  | [] => []
  | path :: rest => parsePath test path ++ parseLoop test rest
  end.

(** [parse(test)]. *)
Definition parse (test : bool) (args : list string) : list event :=
  match getPaths args with
  | inl err => [HError err]
  | inr paths => parseLoop test paths ++ [HStop]
  end.

(** The [for _, dir := range paths] loop of [detect]: the [return] in it
    ends the loop. *)
Fixpoint detectLoop (paths : list string) : list event :=
  match paths with
  | [] => []
  | dir :: rest =>
      CallWrite dir ::
      match Write dir with
      | Some err => [TermError err]
      | None => TermWriteSuccess dir :: detectLoop rest
      end
  end.

(** [detect]. *)
Definition detect (args : list string) : list event :=
  match getPaths args with
  | inl err => [TermError err]
  | inr paths => detectLoop paths
  end.

(** What [detect] does for a directory whose configuration is written. *)
Definition written (dir : string) : list event := [CallWrite dir; TermWriteSuccess dir].

(** The paths of the [config.Load] calls among the events, in order. *)
Fixpoint loaded (evs : list event) : list string :=
  match evs with
  | [] => []
  | CallLoad path :: evs' => path :: loaded evs'
  | _ :: evs' => loaded evs'
  end.

Definition isStop (ev : event) : bool :=
  match ev with HStop => true | _ => false end.

Definition isDo (ev : event) : bool :=
  match ev with CallDo _ | HComplete _ => true | _ => false end.

Definition isParseOnly (ev : event) : bool :=
  match ev with CallParse _ | HTestSuccess => true | _ => false end.

End Main.

End Main.

(** ** Sample rules and inputs *)


(** Two single-line comment rules: [//], and [//] with a filtered star. *)
Definition slashes : Lang.block := Lang.mkBlock Lang.blockTypeSComment "//" "" "".
Definition slashesStar : Lang.block := Lang.mkBlock Lang.blockTypeSComment "//" "" "*".

(** A [Sanitize] for options that are plain numbers: zero is refused. *)
Definition sanitizeNat (o : nat) : SyntaxError + nat :=
  if o =? 0 then inl (NewError "" "lang" 0 ErrRequired) else inr o.

(** A Request of type string with mimetype json and the given enum values. *)
Definition enumRequest (ty : Doc.Type_) (values : list string) : Doc.Request :=
  Doc.mkRequest ty (map (fun v => Doc.mkEnum v "") values) false [] "" "" "json" "".

(** Induction over a Param tree, with the hypothesis for every Item. *)
Fixpoint Param_tree_ind (P : Doc.Param -> Prop)
         (step : forall name ty array items enums,
             Forall P items -> P (Doc.mkParam name ty array items enums))
         (p : Doc.Param) : P p :=
  match p with
  | Doc.mkParam name ty array items enums =>
      step name ty array items enums
        ((fix all (l : list Doc.Param) : Forall P l :=
            match l with
            | [] => Forall_nil P
            | q :: l' => Forall_cons q (Param_tree_ind P step q) (all l')
            end) items)
  end.

(** A callback with a schema that is neither HTTP nor HTTPS. *)
Definition sampleCallback : Doc.Callback := Doc.mkCallback "ftp" "" "" "GET" [] "" [] [].

(** Sample documents: headers, links, schemas and styles are booleans that
    pass their check when true. *)
Definition passWhenTrue (ok : bool) : option SyntaxError :=
  if ok then None else Some (OpenAPI.NewLocaleError "" "value" 0 ErrInvalidValue).

Definition sampleResponse (description : string) (headers : OpenAPI.gomap bool)
  : OpenAPI.Response bool bool bool bool :=
  OpenAPI.mkResponse bool bool bool bool description headers [] [] "".

Definition sampleOperation (responses : OpenAPI.gomap (OpenAPI.Response bool bool bool bool))
  : OpenAPI.Operation bool bool bool bool :=
  OpenAPI.mkOperation bool bool bool bool None responses [].

(** Sample parser: the prefixes of the annotation syntax, documents that list
    what was parsed into them, and a YAML reader that takes the whole text
    for the group name. *)
Definition sampleAPIPrefix : list byte := bytes "@api".
Definition sampleAPIDocPrefix : list byte := bytes "@apidoc".

Definition sampleYAML (data : list byte) : string + (string * string) :=
  inr (string_of_list_byte data, "").

Definition sampleParseInto (d : list string) (x : string * string)
  : list string * option string :=
  (d ++ [snd x], None).

Definition sampleParse (p : Parser.parser (list string)) (data : list byte)
  : Parser.outcome (list string) string :=
  Parser.parse sampleAPIPrefix sampleAPIDocPrefix "-" (list string)
    (string * string) (string * string) string []
    fst (fun a line => (fst a, line)) fst (fun i line => (fst i, line))
    sampleYAML sampleYAML sampleParseInto sampleParseInto p data.

(** Sample surroundings of [main.go]: every path but the empty one has an
    absolute form, the directory [/w/bad] holds no configuration and cannot
    be written to, a configuration is named by its directory. *)
Definition sampleAbs (path : string) : string + string :=
  if String.eqb path "" then inl "empty path" else inr ("/w/" ++ path)%string.

Definition sampleLoad (path : string) : string + string :=
  if String.eqb path "/w/bad" then inl "no configuration" else inr path.

Definition sampleWrite (dir : string) : option string :=
  if String.eqb dir "/w/bad" then Some "read-only" else None.

Definition sampleRun (cfg : string) : option string := None.

(** * Properties *)

(** ** Bytes *)

Lemma byte_eqb_refl (x : byte) : Byte.eqb x x = true.
Proof. now apply Byte.byte_dec_lb. Qed.

Lemma byte_eqb_eq (x y : byte) : Byte.eqb x y = true <-> x = y.
Proof. split; [apply Byte.byte_dec_bl | apply Byte.byte_dec_lb]. Qed.

Lemma bytes_eqb_eq (a b : list byte) : bytes_eqb a b = true <-> a = b.
Proof.
  revert b; induction a as [|x a IH]; intros [|y b]; simpl; split;
    try congruence; try reflexivity.
  - rewrite andb_true_iff, byte_eqb_eq, IH. now intros [-> ->].
  - intros [= -> ->]. rewrite byte_eqb_refl. now apply IH.
Qed.

Lemma HasPrefix_app (w rest : list byte) : HasPrefix (w ++ rest) w = true.
Proof.
  unfold HasPrefix. rewrite length_app, firstn_app, Nat.sub_diag, firstn_all.
  simpl. rewrite app_nil_r. apply andb_true_iff; split.
  - apply Nat.leb_le; lia.
  - now apply bytes_eqb_eq.
Qed.

Lemma length_bytes (s : string) : length (bytes s) = String.length s.
Proof.
  unfold bytes, list_byte_of_string. rewrite length_map.
  induction s as [|c s IH]; simpl; [reflexivity | now rewrite IH].
Qed.

(** ** internal/lang: the line filter *)

Section FilterSymbols.
Import Lang.

Variable charset : string.

Lemma spaces_head (rest : list byte) :
  match skipn (spaces rest) rest with
  | v :: _ => skippable v = false
  | [] => True
  end.
Proof.
  induction rest as [|v rest IH]; simpl; [exact I|].
  destruct (skippable v) eqn:E; simpl; [exact IH | exact E].
Qed.

Lemma spaces_prefix (rest : list byte) :
  Forall (fun v => skippable v = true) (firstn (spaces rest) rest).
Proof.
  induction rest as [|v rest IH]; simpl; [constructor|].
  destruct (skippable v) eqn:E; simpl; constructor; assumption.
Qed.

Lemma filterSymbols_range_spec (pre rest : list byte) :
  filterSymbols_range (pre ++ rest) charset (length pre) rest
  = filtered charset (pre ++ rest) (skipn (spaces rest) rest).
Proof.
  revert pre; induction rest as [|v rest IH]; intros pre; simpl; [reflexivity|].
  destruct (skippable v) eqn:Ev.
  - specialize (IH (pre ++ [v])).
    rewrite <- app_assoc, length_app in IH. simpl in IH.
    rewrite Nat.add_1_r in IH. exact IH.
  - simpl. rewrite Z.leb_antisym.
    destruct (IndexByte charset v <? 0)%Z; simpl.
    + now destruct rest.
    + rewrite app_nth2 by lia.
      replace (length pre + 1 - length pre) with 1 by lia.
      rewrite length_app. simpl.
      destruct rest as [|nx tl]; simpl.
      * replace (length pre + 1 <? length pre + 1) with false; [reflexivity|].
        symmetry; apply Nat.ltb_ge; lia.
      * replace (length pre + 1 <? length pre + S (S (length tl))) with true
          by (symmetry; apply Nat.ltb_lt; lia).
        simpl. destruct (IsSpace nx); [|reflexivity].
        destruct (Byte.eqb nx newline); [reflexivity|].
        rewrite skipn_app, skipn_all2 by lia.
        replace (length pre + 1 - length pre) with 1 by lia. reflexivity.
Qed.

End FilterSymbols.

(** C1, as the code has it.  A line splits into its leading white space
    other than newlines ([spaces line] bytes) and the rest, which starts with
    a byte of another kind.  With an empty charset the line comes back as it
    is.  Otherwise the line is changed only if the first byte of the rest is
    in the charset and is itself followed by a white-space byte: the result
    is then the newline alone when that byte is a newline, and else the line
    from that white-space byte on (the skipped white space and the marker
    are gone, the space after the marker stays).  In every other case the
    line comes back unmodified. *)
Theorem filterSymbols_by_design (line : list byte) (charset : string) :
  Forall (fun v => Lang.skippable v = true) (firstn (Lang.spaces line) line) /\
  match skipn (Lang.spaces line) line with
  | v :: _ => Lang.skippable v = false
  | [] => True
  end /\
  Lang.filterSymbols line charset =
    if String.length charset =? 0 then line
    else match skipn (Lang.spaces line) line with
         | v :: nx :: tl =>
             if (0 <=? IndexByte charset v)%Z && IsSpace nx
             then if Byte.eqb nx newline then [newline] else nx :: tl
             else line
         | _ => line
         end.
Proof.
  split; [apply spaces_prefix|]. split; [apply spaces_head|].
  unfold Lang.filterSymbols. destruct (String.length charset =? 0); [reflexivity|].
  exact (filterSymbols_range_spec charset [] line).
Qed.

(** C1, as the claim words it, fails: on the line "  * a" with charset "*"
    the code keeps the space after the marker and removes the two leading
    spaces with it (three bytes for a single marker), and on "*a" the marker
    is in the charset and stays. *)
Lemma filterSymbols_claim_counterexample :
  Lang.filterSymbols (bytes "  * a") "*" = bytes " a" /\
  Lang.filterSymbols (bytes "  * a") "*" <> Lang.filterSymbols_spec (bytes "  * a") "*" /\
  Lang.filterSymbols_spec (bytes "  * a") "*" = bytes "  a" /\
  Lang.filterSymbols (bytes "*a") "*" = bytes "*a" /\
  Lang.filterSymbols_spec (bytes "*a") "*" = bytes "a" /\
  ~ length (bytes "  * a") <= length (Lang.filterSymbols (bytes "  * a") "*") + 2.
Proof.
  repeat split; try reflexivity.
  - vm_compute. discriminate.
  - vm_compute. lia.
Qed.

(** ** internal/lang: the lexer and the block rules *)

Section Blocks.
Import Lang.

#[local] Arguments bytes : simpl never.
#[local] Arguments budget : simpl never.

Lemma match_true (l l' : lexer) (w : string) :
  match_ l w = (true, l') ->
  occurs w (data l) (pos l) = true /\ l' = setPos l (pos l + length (bytes w)).
Proof.
  unfold match_, occurs. destruct (HasPrefix _ _); intros [= <-]; auto.
Qed.

Lemma atEOF_true (l : lexer) : atEOF l = true <-> length (data l) <= pos l.
Proof. unfold atEOF. apply Nat.leb_le. Qed.

Lemma atEOF_false (l : lexer) : atEOF l = false <-> pos l < length (data l).
Proof. unfold atEOF. rewrite Nat.leb_gt. reflexivity. Qed.

(** *** endString *)

Lemma endString_total (b : block) (fuel : nat) :
  forall l, length (data l) - pos l < fuel -> endString_post b l (endString fuel b l).
Proof.
  induction fuel as [|fuel IH]; intros l Hf; [lia|].
  simpl. destruct (atEOF l) eqn:Heof.
  - exists false, l. auto.
  - apply atEOF_false in Heof.
    assert (Hstep : forall k, endString_post b (setPos l (pos l + k + 1))
                      (endString fuel b (setPos l (pos l + k + 1))) ->
                    endString_post b l (endString fuel b (setPos l (pos l + k + 1)))).
    { intros k (fin & l' & -> & Hd & Hp). exists fin, l'. split; [reflexivity|].
      split; [exact Hd|]. destruct fin; [|exact Hp].
      destruct Hp as (p & Hp1 & Hp2 & Hp3). simpl in *. exists p. repeat split; auto; lia. }
    destruct (if 0 <? String.length (Escape b) then match_ l (Escape b) else (false, l))
      as [esc l1] eqn:Hesc.
    destruct esc.
    + destruct (0 <? String.length (Escape b)); [|discriminate].
      apply match_true in Hesc. destruct Hesc as [_ ->]. simpl.
      apply (Hstep (length (bytes (Escape b)))). apply IH. simpl. lia.
    + destruct (match_ l (End_ b)) as [fin l2] eqn:Hend. destruct fin.
      * apply match_true in Hend. destruct Hend as [Hocc ->].
        exists true, (setPos l (pos l + length (bytes (End_ b)))).
        repeat split. exists (pos l). repeat split; auto; lia.
      * specialize (Hstep 0). rewrite Nat.add_0_r in Hstep.
        apply Hstep. apply IH. simpl. lia.
Qed.



Lemma endString_unfold (b : block) (fuel : nat) (l : lexer) :
  endString (S fuel) b l =
    if atEOF l then Ok (None, false) l
    else
      let (esc, l1) :=
        if 0 <? String.length (Escape b) then match_ l (Escape b) else (false, l) in
      if esc then endString fuel b (setPos l1 (pos l1 + 1))
      else
        let (fin, l2) := match_ l (End_ b) in
        if fin then Ok (None, true) l2
        else endString fuel b (setPos l (pos l + 1)).
Proof. reflexivity. Qed.



(** *** endMComments *)

Lemma endMComments_total (b : block) (fuel : nat) :
  forall l start ls, length (data l) - pos l < fuel ->
                     endMComments_post b l (endMComments fuel b l start ls).
Proof.
  induction fuel as [|fuel IH]; intros l start ls Hf; [lia|].
  simpl. destruct (atEOF l) eqn:Heof.
  - exists l. split; [reflexivity|]. left. auto.
  - apply atEOF_false in Heof.
    destruct (match_ l (End_ b)) as [fin l1] eqn:Hend. destruct fin.
    + apply match_true in Hend. destruct Hend as [Hocc ->].
      exists (setPos l (pos l + length (bytes (End_ b)))). split; [reflexivity|]. right.
      destruct (start <? _);
        eexists; exists (pos l); (split; [reflexivity|]); repeat split; auto; lia.
    + destruct (nth_error (data l) (pos l)) as [r|] eqn:Hr.
      2:{ apply nth_error_None in Hr. lia. }
      assert (Hstep : forall st acc,
                 endMComments_post b l (endMComments fuel b (setPos l (pos l + 1)) st acc)).
      { intros st acc.
        destruct (IH (setPos l (pos l + 1)) st acc) as (l' & Hd & H); [simpl; lia|].
        exists l'. split; [exact Hd|].
        destruct H as [H | (ls' & p & -> & Hp1 & Hp2 & Hp3)]; [left; exact H|].
        right. exists ls', p. simpl in *. repeat split; auto; lia. }
      destruct (Byte.eqb r newline); apply Hstep.
Qed.

(** *** endSComments *)

Lemma readLine_outside (fuel : nat) (l : lexer) :
  length (data l) <= pos l -> readLine (S fuel) l = LinePanic.
Proof.
  intros H. simpl. apply nth_error_None in H. now rewrite H.
Qed.

Lemma readLine_inside (fuel : nat) :
  forall l, length (data l) - pos l < fuel -> pos l < length (data l) ->
    exists l', data l' = data l /\ pos l < pos l' /\
      ((readLine fuel l = LineEOF l' /\ pos l' = length (data l)) \/
       (readLine fuel l = LineNL l' /\ pos l' < length (data l))).
Proof.
  induction fuel as [|fuel IH]; intros l Hf Hin; [lia|].
  simpl. destruct (nth_error (data l) (pos l)) as [r|] eqn:Hr.
  2:{ apply nth_error_None in Hr. lia. }
  destruct (atEOF (setPos l (pos l + 1))) eqn:Heof.
  - apply atEOF_true in Heof. simpl in Heof.
    exists (setPos l (pos l + 1)). simpl. repeat split; try lia. left. split; [reflexivity|lia].
  - apply atEOF_false in Heof. simpl in Heof.
    destruct (Byte.eqb r newline).
    + exists (setPos l (pos l + 1)). simpl. repeat split; try lia. right. auto.
    + destruct (IH (setPos l (pos l + 1))) as (l' & Hd & Hp & H); simpl; try lia.
      exists l'. simpl in *. repeat split; auto; lia.
Qed.

Lemma readLine_more_fuel (fuel : nat) :
  forall l k, length (data l) - pos l < fuel -> readLine (fuel + k) l = readLine fuel l.
Proof.
  induction fuel as [|fuel IH]; intros l k Hf; [lia|].
  simpl. destruct (nth_error (data l) (pos l)) as [r|] eqn:Hr; [|reflexivity].
  destruct (atEOF (setPos l (pos l + 1))) eqn:Heof; [reflexivity|].
  apply atEOF_false in Heof. simpl in Heof.
  destruct (Byte.eqb r newline); [reflexivity|].
  apply IH. simpl. lia.
Qed.

Lemma readLine_budget (fuel : nat) (l : lexer) :
  length (data l) - pos l < fuel -> readLine fuel l = readLine (budget l) l.
Proof.
  intros Hf. unfold budget.
  replace fuel with (S (length (data l) - pos l) + (fuel - S (length (data l) - pos l)))
    by lia.
  apply readLine_more_fuel. lia.
Qed.

Lemma continues_forward (b : block) (l l' : lexer) :
  continues b l l' -> pos l < length (data l) ->
  data l' = data l /\ pos l < pos l'.
Proof.
  intros (l1 & Hread & Hm) Hin.
  destruct (readLine_inside (budget l) l) as (l1' & Hd & Hp & [[H _] | [H _]]);
    try (unfold budget; lia); rewrite H in Hread; [discriminate|].
  injection Hread as ->.
  apply match_true in Hm. destruct Hm as [_ ->]. simpl. split; [exact Hd | lia].
Qed.

Lemma lineStart_inv (b : block) (l l' : lexer) :
  lineStart b l l' -> l' = l \/ exists l1, continues b l l1 /\ lineStart b l1 l'.
Proof. intros H. destruct H; [left; reflexivity | right; eauto]. Qed.

(** [endSComments] with enough budget: it panics exactly when one of the
    line starts is at or behind the end of the buffer; otherwise it returns
    its lines and [true]. *)
Lemma endSComments_total (b : block) (fuel : nat) :
  forall l ls, length (data l) - pos l < fuel ->
    (endSComments fuel b l ls = IndexOutOfRange <->
     exists l', lineStart b l l' /\ length (data l') <= pos l') /\
    (endSComments fuel b l ls = IndexOutOfRange \/
     exists ls' l', endSComments fuel b l ls = Ok (Some ls', true) l').
Proof.
  induction fuel as [|fuel IH]; intros l ls Hf; [lia|].
  cbn [endSComments].
  destruct (Nat.le_gt_cases (length (data l)) (pos l)) as [Hout | Hin].
  - rewrite (readLine_outside fuel l Hout). split; [|left; reflexivity].
    split; [|reflexivity]. intros _. exists l. split; [constructor | exact Hout].
  - destruct (readLine_inside (S fuel) l Hf Hin) as (l1 & Hd & Hp & Hcase).
    assert (Hb : readLine (budget l) l = readLine (S fuel) l)
      by (symmetry; now apply readLine_budget).
    destruct Hcase as [[Hr Hp1] | [Hr Hp1]]; rewrite Hr in *.
    + split; [|right; unfold endSComments_return; eauto].
      split; [discriminate|].
      intros (l' & Hls & Hl'). apply lineStart_inv in Hls.
      destruct Hls as [-> | (l2 & (l3 & Hc & _) & _)]; [lia|]. congruence.
    + destruct (match_ (skipSpace l1) (Begin b)) as [again l2] eqn:Hm.
      destruct again.
      * pose proof Hm as Hm'. apply match_true in Hm'. destruct Hm' as [_ Hl2].
        assert (Hc : continues b l l2) by (exists l1; split; [congruence | exact Hm]).
        assert (Hf2 : length (data l2) - pos l2 < fuel) by (subst l2; simpl; rewrite Hd; lia).
        destruct (IH l2 (ls ++ [filterSymbols (slice (data l1) (pos l) (pos l1)) (Escape b)])
                    Hf2) as [Hiff Hres].
        split; [|exact Hres]. rewrite Hiff. split.
        -- intros (l' & Hls & Hl'). exists l'. split; [|exact Hl'].
           eapply lineStart_probe; eauto.
        -- intros (l' & Hls & Hl'). apply lineStart_inv in Hls.
           destruct Hls as [-> | (l3 & (l4 & Hc4 & Hm4) & Hls)]; [lia|].
           rewrite Hb in Hc4. injection Hc4 as <-. rewrite Hm in Hm4.
           injection Hm4 as <-. eauto.
      * split; [|right; unfold endSComments_return; eauto].
        split; [discriminate|].
        intros (l' & Hls & Hl'). apply lineStart_inv in Hls.
        destruct Hls as [-> | (l3 & (l4 & Hc4 & Hm4) & Hls)]; [lia|].
        rewrite Hb in Hc4. injection Hc4 as <-. rewrite Hm in Hm4. discriminate.
Qed.

(** [EndFunc] never runs out of its budget. *)
Lemma EndFunc_total (b : block) (l : lexer) : EndFunc b l <> OutOfFuel.
Proof.
  unfold EndFunc. destruct (Type_ b).
  - destruct (endString_total b (budget l) l) as (fin & l' & -> & _);
      [unfold budget; lia | discriminate].
  - destruct (endSComments_total b (budget l) l []) as [_ [-> | (ls & l' & ->)]];
      [unfold budget; lia | discriminate | discriminate].
  - destruct (endMComments_total b (budget l) l (pos l) [])
      as (l' & _ & [[-> _] | (ls & p & -> & _)]);
      [unfold budget; lia | discriminate | discriminate].
Qed.

End Blocks.



(** C10.  For a SingleLineComment rule, [EndFunc] indexes the buffer out of
    range exactly when the cursor is at or behind the end of the buffer at
    the start of a line, that is on entry or after a continuation probe that
    matched [Begin]; if it does not, it returns its lines and [true].  The
    out-of-range case is reached from a real scan: in any buffer that ends
    with the rule's [Begin], [BeginFunc] matches at the offset of that token
    and leaves the cursor at the end of the buffer, where [EndFunc] panics;
    the two-byte file [//] is the smallest such input. *)
Theorem endSComments_index_safety :
  (forall (b : Lang.block) (l : Lang.lexer),
      Lang.Type_ b = Lang.blockTypeSComment ->
      (Lang.EndFunc b l = Lang.IndexOutOfRange <->
       exists l', Lang.lineStart b l l' /\ length (Lang.data l') <= Lang.pos l') /\
      (Lang.EndFunc b l = Lang.IndexOutOfRange \/
       exists ls l', Lang.EndFunc b l = Lang.Ok (Some ls, true) l')) /\
  (forall (b : Lang.block) (before : list byte),
      Lang.Type_ b = Lang.blockTypeSComment ->
      let l0 := Lang.mkLexer (before ++ bytes (Lang.Begin b)) (length before) in
      exists l1, Lang.BeginFunc b l0 = (true, l1) /\
                 Lang.pos l1 = length (Lang.data l1) /\
                 Lang.EndFunc b l1 = Lang.IndexOutOfRange) /\
  (exists l1, Lang.BeginFunc slashes (Lang.mkLexer (bytes "//") 0) = (true, l1) /\
              Lang.pos l1 = length (Lang.data l1) /\
              Lang.EndFunc slashes l1 = Lang.IndexOutOfRange).
Proof.
  split; [|split].
  - intros b l Ht. unfold Lang.EndFunc. rewrite Ht.
    apply endSComments_total. unfold Lang.budget. lia.
  - intros b before Ht l0.
    exists (Lang.setPos l0 (length before + length (bytes (Lang.Begin b)))).
    assert (Hlen : Lang.pos (Lang.setPos l0 (length before + length (bytes (Lang.Begin b))))
                   = length (Lang.data l0))
      by (subst l0; simpl; now rewrite length_app).
    split; [|split].
    + unfold Lang.BeginFunc, Lang.match_. subst l0. simpl.
      rewrite skipn_app, skipn_all, Nat.sub_diag. simpl.
      rewrite <- (app_nil_r (bytes (Lang.Begin b))) at 1.
      now rewrite HasPrefix_app.
    + exact Hlen.
    + unfold Lang.EndFunc. rewrite Ht. unfold Lang.budget.
      simpl Lang.data in *. rewrite Hlen, Nat.sub_diag.
      cbn [Lang.endSComments]. rewrite readLine_outside; [reflexivity|].
      simpl Lang.data. rewrite Hlen. lia.
  - exists (Lang.mkLexer (bytes "//") 2). repeat split.
Qed.

(** The theorem at the file [//]: the panic comes with a line start at the
    end of the buffer. *)
Lemma endSComments_index_safety_witness :
  exists l', Lang.lineStart slashes (Lang.mkLexer (bytes "//") 2) l' /\
             length (Lang.data l') <= Lang.pos l'.
Proof.
  destruct endSComments_index_safety as [H _].
  destruct (H slashes (Lang.mkLexer (bytes "//") 2) eq_refl) as [[Hpanic _] _].
  apply Hpanic. reflexivity.
Defined.

(** C2, where the code leaves the claim.  (1) In the file [//] the rule's
    [Begin] has matched and the cursor is at the end of the buffer:
    [EndFunc] does not succeed, it indexes out of range.  (2) In [// * a]
    with the star filtered, the last line is cut off by the end of the
    buffer and is appended as it is, although the filter would change it;
    the cursor is then put back onto the last byte, which is no newline.
    (3) After the line [//a] the probe steps over the two spaces of the next
    line, [Begin] does not match, and the cursor is put back onto a space:
    the newline is not handed back. *)
Theorem endSComments_claim_failing_inputs :
  Lang.EndFunc slashes (Lang.mkLexer (bytes "//") 2) = Lang.IndexOutOfRange /\
  (Lang.EndFunc slashesStar (Lang.mkLexer (bytes "// * a") 2)
   = Lang.Ok (Some [bytes " * a"], true) (Lang.mkLexer (bytes "// * a") 5) /\
   Lang.filterSymbols (bytes " * a") "*" = bytes " a" /\
   nth 5 (bytes "// * a") x00 = "a"%byte) /\
  (Lang.EndFunc slashes (Lang.mkLexer (bytes "//a" ++ [newline] ++ bytes "  x") 2)
   = Lang.Ok (Some [bytes "a" ++ [newline]], true)
       (Lang.mkLexer (bytes "//a" ++ [newline] ++ bytes "  x") 5) /\
   nth 5 (bytes "//a" ++ [newline] ++ bytes "  x") x00 = " "%byte).
Proof. repeat split. Qed.

(** The scenario of the specification: two adjacent comment lines are one
    block of two lines; with a statement between them the first comment is a
    block of its own, and the cursor is handed back on the newline. *)
Example endSComments_scenario :
  Lang.EndFunc slashes
    (Lang.mkLexer (bytes "// one" ++ [newline] ++ bytes "  // two" ++ [newline] ++ bytes "x") 2)
  = Lang.Ok (Some [bytes " one" ++ [newline]; bytes " two" ++ [newline]], true)
      (Lang.mkLexer (bytes "// one" ++ [newline] ++ bytes "  // two" ++ [newline] ++ bytes "x")
         15) /\
  Lang.EndFunc slashes
    (Lang.mkLexer (bytes "// one" ++ [newline] ++ bytes "x()" ++ [newline] ++ bytes "// two") 2)
  = Lang.Ok (Some [bytes " one" ++ [newline]], true)
      (Lang.mkLexer (bytes "// one" ++ [newline] ++ bytes "x()" ++ [newline] ++ bytes "// two")
         6).
Proof. split; reflexivity. Qed.

(** ** input *)

Section InputFacts.
Import Input.

Variable Options : Type.
Variable Sanitize : Options -> SyntaxError + Options.

Lemma checkOptions_ok (opt : list (option Options)) :
  forall index done,
    forallb (optionOK Options Sanitize) opt = true ->
    exists opts, checkOptions Options Sanitize index opt done = inr opts /\
                 length opts = length done + length opt.
Proof.
  induction opt as [|item opt IH]; intros index done Hok; simpl.
  - exists (rev done). rewrite length_rev. auto.
  - simpl in Hok. apply andb_true_iff in Hok. destruct Hok as [Hitem Hok].
    destruct item as [o|]; [|discriminate]. simpl in Hitem.
    destruct (Sanitize o) as [err|o']; [discriminate|].
    destruct (IH (S index) (o' :: done) Hok) as (opts & -> & Hlen).
    exists opts. split; [reflexivity|]. simpl in Hlen. lia.
Qed.

Lemma checkOptions_first_bad (good : list (option Options)) :
  forall index done bad rest,
    forallb (optionOK Options Sanitize) good = true ->
    optionOK Options Sanitize bad = false ->
    checkOptions Options Sanitize index (good ++ bad :: rest) done
    = inl (optionError Options Sanitize (index + length good) bad).
Proof.
  induction good as [|item good IH]; intros index done bad rest Hgood Hbad; simpl.
  - rewrite Nat.add_0_r. unfold optionError. destruct bad as [o|]; [|reflexivity].
    simpl in Hbad. destruct (Sanitize o); [reflexivity | discriminate].
  - simpl in Hgood. apply andb_true_iff in Hgood. destruct Hgood as [Hitem Hgood].
    destruct item as [o|]; [|discriminate]. simpl in Hitem.
    destruct (Sanitize o) as [err|o']; [discriminate|].
    rewrite (IH (S index) (o' :: done) bad rest Hgood Hbad).
    do 2 f_equal. lia.
Qed.

End InputFacts.

(** C3, where the code leaves the claim.  For a block that starts with
    neither marker [parseBlock] leaves the document as it is, but it still
    calls the handler's [Error], with the record [message.WithError] builds
    around a nil error: the call after the [switch] is not guarded. *)
Theorem parseBlock_unrecognized_reports (Doc error Handler : Type)
        (FromXML : Doc -> list byte -> Doc * option error)
        (NewAPI_FromXML : Doc -> string -> Z -> list byte -> Doc * option error)
        (WithError : string -> string -> Z -> option error -> error)
        (Handler_Error : Handler -> Input.msgType -> error -> Handler)
        (d : Doc) (blk : Input.block) (h : Handler) :
  HasPrefix (Input.Data blk) Input.apidocBegin = false ->
  HasPrefix (Input.Data blk) Input.apiBegin = false ->
  Input.parseBlock Doc error Handler FromXML NewAPI_FromXML WithError Handler_Error d blk h
  = (d, Handler_Error h Input.Erro
          (WithError (Input.File blk) "" (Input.Line blk) None)).
Proof.
  intros Hdoc Hapi. unfold Input.parseBlock. rewrite Hdoc, Hapi. reflexivity.
Qed.

(** The theorem at the block [hello] of a.go, line 3, with a handler that
    keeps what it is handed: the handler, empty before, holds one record. *)
Lemma parseBlock_unrecognized_reports_witness :
  Input.parseBlock unit Input.report Input.logHandler
    (fun d _ => (d, None)) (fun d _ _ _ => (d, None))
    Input.WithErr Input.logError tt (Input.mkBlock "a.go" 3 (bytes "hello")) []
  = (tt, [(Input.Erro, Input.WithErr "a.go" "" 3 None)]).
Proof.
  apply (parseBlock_unrecognized_reports unit Input.report Input.logHandler
           (fun d _ => (d, None)) (fun d _ _ _ => (d, None))
           Input.WithErr Input.logError tt (Input.mkBlock "a.go" 3 (bytes "hello")) []);
    reflexivity.
Defined.

(** C8.  [buildBlock] returns an error, and sets nothing going, when there
    is no option at all and when some option is nil or fails its [Sanitize]
    (the error is that of the first such option, named by its index); then
    [Parse] returns that error, with no document and nothing set going.
    With at least one option and all of them passing, [buildBlock] returns
    no error, starts the one scan goroutine over the sanitized options and
    returns its channel. *)
Theorem buildBlock_options_check (Options : Type) (Sanitize : Options -> SyntaxError + Options)
        (opt : list (option Options)) :
  (opt = [] ->
   Input.buildBlock Options Sanitize opt
   = ([], (None, Some (NewError "" "opt" 0 ErrRequired)))) /\
  (forall good bad rest,
      opt = good ++ bad :: rest ->
      forallb (Input.optionOK Options Sanitize) good = true ->
      Input.optionOK Options Sanitize bad = false ->
      Input.buildBlock Options Sanitize opt
      = ([], (None, Some (Input.optionError Options Sanitize (length good) bad)))) /\
  (forall err, snd (snd (Input.buildBlock Options Sanitize opt)) = Some err ->
               fst (Input.buildBlock Options Sanitize opt) = [] /\
               forall (Doc : Type) (drain : option (Input.channel Options) -> Doc),
                 Input.Parse Options Sanitize drain opt = ([], (None, Some err))) /\
  (opt <> [] ->
   forallb (Input.optionOK Options Sanitize) opt = true ->
   exists opts,
     Input.buildBlock Options Sanitize opt
     = ([Input.GoScan opts], (Some (Input.Chan 500 opts), None)) /\
     length opts = length opt).
Proof.
  split; [intros ->; reflexivity|]. split.
  { intros good bad rest -> Hgood Hbad. unfold Input.buildBlock.
    rewrite length_app. simpl. rewrite Nat.add_succ_r. simpl.
    now rewrite (checkOptions_first_bad Options Sanitize good 0 [] bad rest Hgood Hbad). }
  split.
  { intros err Herr. unfold Input.Parse. unfold Input.buildBlock in *.
    destruct (length opt =? 0).
    - simpl in Herr. injection Herr as <-. split; [reflexivity|]. reflexivity.
    - destruct (Input.checkOptions Options Sanitize 0 opt []); simpl in Herr.
      + injection Herr as <-. split; [reflexivity|]. reflexivity.
      + discriminate. }
  intros Hne Hok. unfold Input.buildBlock.
  destruct opt as [|item opt']; [congruence|]. cbn [length Nat.eqb].
  destruct (checkOptions_ok Options Sanitize (item :: opt') 0 [] Hok) as (opts & -> & Hlen).
  exists opts. split; [reflexivity | exact Hlen].
Qed.

(** The theorem at work: the second of three options is nil; two good
    options pass. *)
Lemma buildBlock_options_check_witness :
  Input.buildBlock nat sanitizeNat [Some 1; None; Some 2]
  = ([], (None, Some (NewError "" "opt[1]" 0 ErrRequired))) /\
  (exists opts,
      Input.buildBlock nat sanitizeNat [Some 1; Some 2]
      = ([Input.GoScan opts], (Some (Input.Chan 500 opts), None)) /\
      length opts = 2).
Proof.
  split.
  - destruct (buildBlock_options_check nat sanitizeNat [Some 1; None; Some 2]) as (_ & H & _).
    apply (H [Some 1] None [Some 2]); reflexivity.
  - destruct (buildBlock_options_check nat sanitizeNat [Some 1; Some 2]) as (_ & _ & _ & H).
    apply H; [discriminate | reflexivity].
Defined.

(** ** doc *)

Section DocFacts.
Import Doc.

Lemma existsb_eqb_In (k : string) (keys : list string) :
  existsb (String.eqb k) keys = true <-> In k keys.
Proof.
  rewrite existsb_exists. split.
  - intros (x & Hin & Heq). apply String.eqb_eq in Heq. now subst.
  - intros Hin. exists k. split; [exact Hin | apply String.eqb_refl].
Qed.

Lemma getDuplicate_NoDup (keys : list string) :
  NoDup keys -> getDuplicate keys = "".
Proof.
  induction 1 as [|k keys Hnotin Hnd IH]; simpl; [reflexivity|].
  destruct (existsb (String.eqb k) keys) eqn:E; [|exact IH].
  apply existsb_eqb_In in E. contradiction.
Qed.

Lemma getDuplicate_dup (keys : list string) :
  Forall (fun k => k <> "") keys -> ~ NoDup keys -> getDuplicate keys <> "".
Proof.
  induction 1 as [|k keys Hk Hall IH]; intros Hdup; simpl.
  - exfalso. apply Hdup. constructor.
  - destruct (existsb (String.eqb k) keys) eqn:E; [exact Hk|].
    apply IH. intros Hnd. apply Hdup. constructor; [|exact Hnd].
    intros Hin. apply existsb_eqb_In in Hin. congruence.
Qed.

Lemma eqb_empty_false (s : string) : s <> "" -> String.eqb s "" = false.
Proof. intros H. now apply String.eqb_neq. Qed.

(** Upper-casing forgets the case of ASCII letters. *)
Lemma ToUpperASCII_any_case (s t : string) :
  sameFoldASCII s t = true -> ToUpperASCII s = ToUpperASCII t.
Proof.
  revert t; induction s as [|c s IH]; intros [|d t]; simpl; try discriminate;
    [reflexivity|].
  rewrite andb_true_iff. intros [Hc Hs]. apply Ascii.eqb_eq in Hc.
  now rewrite Hc, (IH t Hs).
Qed.

End DocFacts.

(** C5.  Once the element is decoded, [Callback.UnmarshalXML] returns an
    error exactly when the Method is empty, or the upper-cased Schema is
    neither HTTP nor HTTPS, or there is no Request; the checks are made in
    this order and each has its own field path.  Nothing is asked of the
    Responses. *)
Theorem Callback_UnmarshalXML_checks (decodeError : Type) (ToUpper : string -> string)
        (c shadow : Doc.Callback) (local : string) :
  let r := snd (Doc.Callback_UnmarshalXML decodeError ToUpper c local (inr shadow)) in
  let httpish := ToUpper (Doc.Schema shadow) = "HTTP" \/ ToUpper (Doc.Schema shadow) = "HTTPS" in
  (Doc.Method shadow = "" ->
   r = Some (Doc.newSyntaxError (("/" ++ local) ++ "#method") ErrRequired)) /\
  (Doc.Method shadow <> "" -> ~ httpish ->
   r = Some (Doc.newSyntaxError (("/" ++ local) ++ "#schema") ErrInvalidValue)) /\
  (Doc.Method shadow <> "" -> httpish -> Doc.Requests shadow = [] ->
   r = Some (Doc.newSyntaxError (("/" ++ local) ++ "/request") ErrRequired)) /\
  (Doc.Method shadow <> "" -> httpish -> Doc.Requests shadow <> [] -> r = None) /\
  (r = None <-> Doc.Method shadow <> "" /\ httpish /\ Doc.Requests shadow <> []).
Proof.
  intros r httpish. subst r httpish. unfold Doc.Callback_UnmarshalXML.
  unfold Doc.SchemaHTTP, Doc.SchemaHTTPS.
  destruct (String.eqb_spec (Doc.Method shadow) "") as [Hm | Hm].
  { repeat split; try congruence; try discriminate. intros (H & _). congruence. }
  destruct (String.eqb_spec (ToUpper (Doc.Schema shadow)) "HTTP") as [H1 | H1];
    destruct (String.eqb_spec (ToUpper (Doc.Schema shadow)) "HTTPS") as [H2 | H2];
    cbn [negb andb];
    try (destruct (Doc.Requests shadow) as [|rq rqs]; cbn [length Nat.eqb snd];
         repeat split; try congruence; try discriminate; try tauto;
         intros; try tauto; congruence).
Qed.

(** The theorem at work, with the upper-casing of ASCII strings, under which
    the schema may be written in any case ([ToUpperASCII_any_case]): a
    callback with method GET, schema [hTTps] and one request passes. *)
Lemma Callback_UnmarshalXML_checks_witness :
  let rq := Doc.mkRequest Doc.String_ [] false [] "" "" "json" "" in
  let cb := Doc.mkCallback "hTTps" "" "" "GET" [] "" [] [rq] in
  snd (Doc.Callback_UnmarshalXML unit Doc.ToUpperASCII cb "Callback" (inr cb)) = None.
Proof.
  intros rq cb.
  destruct (Callback_UnmarshalXML_checks unit Doc.ToUpperASCII cb cb "Callback")
    as (_ & _ & _ & H & _).
  apply H; [discriminate | right; reflexivity | discriminate].
Defined.

(** C6, as the code has it.  A decoded Request that fails one of the checks
    made first is refused with that check's error, whatever its enums and
    items: no type (at the type attribute), an Object without items (at the
    item path), no mimetype (at the mimetype attribute), in this order.
    For a decoded Request that passes these checks and whose enum values
    and item names are not empty: a value that occurs twice among the enums
    is refused with the duplicate-value error at the enum path; with
    distinct values, a name that occurs twice among the items is refused
    with the duplicate-value error at the item path; with distinct values
    and distinct names (empty or not) the Request is accepted and stored.
    [*r] is left alone whenever an error is returned. *)
Theorem Request_UnmarshalXML_duplicates (decodeError : Type)
        (r shadow : Doc.Request) (local : string) :
  let res := Doc.Request_UnmarshalXML decodeError r local (inr shadow) in
  let values := map Doc.Value (Doc.Enums shadow) in
  let names := map Doc.Name (Doc.Items shadow) in
  (Doc.RType shadow = Doc.None_ ->
   res = (r, Some (Doc.newSyntaxError (("/" ++ local) ++ "#type") ErrRequired))) /\
  (Doc.RType shadow = Doc.Object -> Doc.Items shadow = [] ->
   res = (r, Some (Doc.newSyntaxError (("/" ++ local) ++ "/item") ErrRequired))) /\
  (Doc.RType shadow <> Doc.None_ ->
   (Doc.RType shadow = Doc.Object -> Doc.Items shadow <> []) ->
   Doc.Mimetype shadow = "" ->
   res = (r, Some (Doc.newSyntaxError (("/" ++ local) ++ "#mimetype") ErrRequired))) /\
  (Doc.RType shadow <> Doc.None_ ->
   (Doc.RType shadow = Doc.Object -> Doc.Items shadow <> []) ->
   Doc.Mimetype shadow <> "" ->
   (Forall (fun k => k <> "") values -> ~ NoDup values ->
    res = (r, Some (Doc.newSyntaxError (("/" ++ local) ++ "/enum") ErrDuplicateValue))) /\
   (Forall (fun k => k <> "") names -> NoDup values -> ~ NoDup names ->
    res = (r, Some (Doc.newSyntaxError (("/" ++ local) ++ "/item") ErrDuplicateValue))) /\
   (NoDup values -> NoDup names -> res = (shadow, None))).
Proof.
  intros res values names. subst res values names.
  unfold Doc.Request_UnmarshalXML.
  split; [intros ->; reflexivity|].
  split; [intros -> ->; reflexivity|].
  split.
  { intros Hty Hobj ->.
    destruct (Doc.RType shadow) eqn:E; try congruence; try reflexivity.
    destruct (Doc.Items shadow); [now elim Hobj | reflexivity]. }
  intros Hty Hobj Hmime.
  replace (Doc.Type_eqb (Doc.RType shadow) Doc.None_) with false
    by (destruct (Doc.RType shadow) eqn:E; try reflexivity; congruence).
  replace (Doc.Type_eqb (Doc.RType shadow) Doc.Object && (length (Doc.Items shadow) =? 0))
    with false.
  2:{ destruct (Doc.RType shadow) eqn:E; try reflexivity.
      destruct (Doc.Items shadow); [now elim Hobj | reflexivity]. }
  rewrite (eqb_empty_false _ Hmime).
  unfold Doc.getDuplicateEnum, Doc.getDuplicateItems.
  repeat split.
  - intros Hne Hdup.
    now rewrite (eqb_empty_false _ (getDuplicate_dup _ Hne Hdup)).
  - intros Hne Hnd Hdup. rewrite (getDuplicate_NoDup _ Hnd). simpl.
    now rewrite (eqb_empty_false _ (getDuplicate_dup _ Hne Hdup)).
  - intros Hv Hn. now rewrite (getDuplicate_NoDup _ Hv), (getDuplicate_NoDup _ Hn).
Qed.

(** The theorem at work: the enum value [a] is declared twice. *)
Lemma Request_UnmarshalXML_duplicates_witness :
  Doc.Request_UnmarshalXML unit (enumRequest Doc.String_ []) "request"
    (inr (enumRequest Doc.String_ ["a"; "b"; "a"]))
  = (enumRequest Doc.String_ [],
     Some (Doc.newSyntaxError "/request/enum" ErrDuplicateValue)).
Proof.
  destruct (Request_UnmarshalXML_duplicates unit (enumRequest Doc.String_ [])
              (enumRequest Doc.String_ ["a"; "b"; "a"]) "request") as (_ & _ & _ & Hdup).
  destruct Hdup as (H & _).
  - discriminate.
  - discriminate.
  - discriminate.
  - apply H.
    + repeat constructor; discriminate.
    + intros Hnd. inversion Hnd as [|x xs Hnotin _]. apply Hnotin. simpl. auto.
Defined.

(** C6, as the claim words it, fails: a Request without a type whose enum
    value [a] is declared twice is refused at the type attribute, not at the
    enum; and a Request whose two enums both have the empty value is
    accepted, the empty string being what the duplicate search returns for
    "none". *)
Lemma Request_duplicates_claim_counterexample :
  Doc.getDuplicateEnum (Doc.Enums (enumRequest Doc.None_ ["a"; "a"])) = "a" /\
  snd (Doc.Request_UnmarshalXML unit (enumRequest Doc.String_ []) "request"
         (inr (enumRequest Doc.None_ ["a"; "a"])))
  = Some (Doc.newSyntaxError "/request#type" ErrRequired) /\
  ~ NoDup (map Doc.Value (Doc.Enums (enumRequest Doc.String_ [""; ""]))) /\
  snd (Doc.Request_UnmarshalXML unit (enumRequest Doc.String_ []) "request"
         (inr (enumRequest Doc.String_ [""; ""]))) = None.
Proof.
  repeat split.
  intros Hnd. inversion Hnd as [|x xs Hnotin _]. apply Hnotin. simpl. auto.
Qed.

(** ** mock *)

Section MockFacts.
Import Doc Mock.

Lemma find_app (pre post : list string) :
  forall p, find p (pre ++ post)
            = match find p pre with Some q => find q post | None => None end.
Proof.
  induction pre as [|name pre IH]; intros p; simpl; [reflexivity|].
  destruct (findItem name (PItems p)) as [q|]; [apply IH | reflexivity].
Qed.

Lemma find_None (names : list string) :
  forall p, find p names = None ->
            exists pre name post q,
              names = pre ++ name :: post /\ find p pre = Some q /\
              findItem name (PItems q) = None.
Proof.
  induction names as [|name names IH]; intros p H; simpl in H; [discriminate|].
  destruct (findItem name (PItems p)) as [q|] eqn:E.
  - destruct (IH q H) as (pre & name' & post & q' & -> & Hpre & Hnone).
    exists (name :: pre), name', post, q'. simpl. rewrite E. auto.
  - exists [], name, names, p. auto.
Qed.

Lemma WellFormed_inv (name : string) (ty : Type_) (array : bool)
      (items : list Param) (enums : list Enum) :
  WellFormed (mkParam name ty array items enums) ->
  (ty = Object <-> items <> []) /\ NoDup (map Name items) /\ Forall WellFormed items.
Proof.
  intros H. refine (match H in WellFormed p
                          return match p with
                                 | mkParam _ t _ its _ =>
                                     (t = Object <-> its <> []) /\ NoDup (map Name its) /\
                                     Forall WellFormed its
                                 end
                    with WellFormed_intro _ _ _ _ _ h1 h2 h3 => conj h1 (conj h2 h3) end).
Qed.

Lemma findItem_NoDup (items : list Param) :
  NoDup (map Name items) ->
  forall q, In q items -> findItem (Name q) items = Some q.
Proof.
  induction items as [|x items IH]; intros Hnd q Hin; [contradiction|].
  simpl in *. inversion Hnd as [|n ns Hnotin Hnd']. subst.
  destruct Hin as [-> | Hin].
  - now rewrite String.eqb_refl.
  - destruct (String.eqb_spec (Name x) (Name q)) as [E | E].
    + exfalso. apply Hnotin. rewrite E. now apply in_map.
    + now apply IH.
Qed.

(** The fields synthesized for the Items [l] of the Object [p] all pass. *)
Lemma validJSON_fields (path : list string) (p : Param) (l : list Param) :
  (forall q, In q l -> findItem (Name q) (PItems p) = Some q) ->
  (forall q, In q l -> forall path', validJSON_at path' q (PArray q) (buildJSON q) = None) ->
  (fix each (fs : list (string * json)) : option validError :=
     match fs with
     | [] => None
     | (k, fv) :: fs' =>
         match findItem k (PItems p) with
         | None => Some (UnknownField (path ++ [k]))
         | Some q =>
             match validJSON_at (path ++ [k]) q (PArray q) fv with
             | Some err => Some err
             | None => each fs'
             end
         end
     end) (map (fun q => (Name q, buildJSON q)) l) = None.
Proof.
  induction l as [|x l IH]; intros Hfind Hvalid; simpl; [reflexivity|].
  rewrite (Hfind x (or_introl eq_refl)), (Hvalid x (or_introl eq_refl)).
  apply IH; intros q Hq; [apply Hfind | apply Hvalid]; now right.
Qed.

(** Every element of an array of copies of [v] passes when [v] does. *)
Lemma validJSON_repeat (path : list string) (p : Param) (v : json) (n : nat) :
  validJSON_at path p false v = None ->
  (fix each (es : list json) : option validError :=
     match es with
     | [] => None
     | e :: es' =>
         match validJSON_at path p false e with
         | Some err => Some err
         | None => each es'
         end
     end) (repeat v n) = None.
Proof.
  intros H. induction n as [|n IH]; simpl; [reflexivity|]. now rewrite H.
Qed.

End MockFacts.

(** C4, as the lookup is modelled.  A path without segments resolves to the
    root.  A segment that names a declared Item moves to that Item, whatever
    the Array flag or the type of the Param it is looked up in, and the
    lookup of a longer path is the lookup of its parts, to any depth.  The
    result is "not found" exactly when some segment, empty or not, names no
    Item of the Param reached by the segments before it. *)
Theorem find_path_lookup (p : Doc.Param) :
  Mock.find p [] = Some p /\
  (forall name names q,
      Mock.findItem name (Doc.PItems p) = Some q ->
      Mock.find p (name :: names) = Mock.find q names) /\
  (forall ty array segment names,
      Mock.find (Doc.mkParam (Doc.Name p) ty array (Doc.PItems p) (Doc.PEnums p))
        (segment :: names)
      = Mock.find p (segment :: names)) /\
  (forall pre post,
      Mock.find p (pre ++ post)
      = match Mock.find p pre with Some q => Mock.find q post | None => None end) /\
  (forall names,
      Mock.find p names = None <->
      exists pre name post q,
        names = pre ++ name :: post /\ Mock.find p pre = Some q /\
        Mock.findItem name (Doc.PItems q) = None).
Proof.
  split; [reflexivity|]. split.
  { intros name names q H. simpl. now rewrite H. }
  split.
  { intros ty array segment names. reflexivity. }
  split.
  { intros pre post. apply find_app. }
  intros names. split.
  - apply find_None.
  - intros (pre & name & post & q & -> & Hpre & Hnone).
    rewrite find_app, Hpre. simpl. now rewrite Hnone.
Qed.

(** The theorem at work on the tree of the test: the path group, tags, id
    goes through the array of tags to a number; the segment nope names no
    Item of group. *)
Lemma find_path_lookup_witness :
  Mock.find Mock.testParam ["group"; "tags"; "id"] = Some (Mock.leaf "id" Doc.Number) /\
  Mock.find Mock.testParam ["group"; "nope"; "id"] = None.
Proof.
  split.
  - destruct (find_path_lookup Mock.testParam) as (_ & H & _).
    rewrite (H "group" ["tags"; "id"] Mock.testGroup eq_refl).
    destruct (find_path_lookup Mock.testGroup) as (_ & H' & _).
    rewrite (H' "tags" ["id"] Mock.testTags eq_refl). reflexivity.
  - destruct (find_path_lookup Mock.testParam) as (_ & _ & _ & _ & H).
    apply H. exists ["group"], "nope", ["id"], Mock.testGroup. repeat split.
Defined.

(** C4, as the claim words it, fails: on the tree of the test the path made
    of one empty segment is not resolved to the root, it is "not found", as
    the test asserts. *)
Lemma find_empty_segment_counterexample :
  Mock.find Mock.testParam [""] = None /\
  Mock.find Mock.testParam [""] <> Some Mock.testParam.
Proof. split; [reflexivity | discriminate]. Qed.

(** The assertions of [TestJSONValidator_find]. *)
Example TestJSONValidator_find :
  Mock.find Mock.testParam [] = Some Mock.testParam /\
  Mock.find Mock.testParam [""] = None /\
  option_map Doc.PType (Mock.find Mock.testParam ["name"]) = Some Doc.String_ /\
  Mock.find Mock.testParam ["not-exists"] = None /\
  option_map Doc.PType (Mock.find Mock.testParam ["group"; "id"]) = Some Doc.Number /\
  option_map Doc.PType (Mock.find Mock.testParam ["group"; "tags"; "id"]) = Some Doc.Number.
Proof. repeat split. Qed.

(** The entries of [jsonTestData] that are trees with a type: what
    [TestBuildJSON] and [TestValidJSON] assert of them. *)
Example TestBuildJSON_TestValidJSON :
  (Mock.buildJSON (Mock.leaf "" Doc.None_) = Mock.JNull /\
   Mock.buildJSON (Mock.leaf "" Doc.Number) = Mock.JNumber 1024 /\
   Mock.buildJSON (Mock.leaf "" Doc.Bool) = Mock.JBool true /\
   Mock.buildJSON Mock.testBools = Mock.JArray (repeat (Mock.JBool true) 5) /\
   Mock.buildJSON Mock.testObject = Mock.testObjectData /\
   Mock.buildJSON Mock.testParam = Mock.testParamData) /\
  (Mock.validJSON (Mock.leaf "" Doc.None_) Mock.JNull = None /\
   Mock.validJSON (Mock.leaf "" Doc.Number) (Mock.JNumber 1024) = None /\
   Mock.validJSON (Mock.leaf "" Doc.Bool) (Mock.JBool true) = None /\
   Mock.validJSON Mock.testBools (Mock.JArray (repeat (Mock.JBool true) 5)) = None /\
   Mock.validJSON Mock.testObject Mock.testObjectData = None /\
   Mock.validJSON Mock.testParam Mock.testParamData = None).
Proof. repeat split. Qed.

(** The scenario of the specification: a response object with one numeric
    item id synthesizes to an object with id 1024, and a string for id is a
    type mismatch at the path id. *)
Example scenario_id :
  let response := Doc.mkParam "" Doc.Object false [Mock.leaf "id" Doc.Number] [] in
  Mock.buildJSON response = Mock.JObject [("id", Mock.JNumber 1024)] /\
  Mock.validJSON response (Mock.JObject [("id", Mock.JString "x")])
  = Some (Mock.TypeMismatch ["id"]) /\
  Mock.validJSON response (Mock.JObject [("ID", Mock.JNumber 1)])
  = Some (Mock.UnknownField ["ID"]) /\
  Mock.validJSON response (Mock.JObject []) = None.
Proof. repeat split. Qed.

(** C9.  For every well-formed Param tree, the value synthesized from the
    tree is valid against the tree. *)
Theorem validJSON_buildJSON (p : Doc.Param) :
  Mock.WellFormed p -> Mock.validJSON p (Mock.buildJSON p) = None.
Proof.
  intros Hwf. unfold Mock.validJSON. generalize (@nil string) as path. revert Hwf.
  induction p as [name ty array items enums IH] using Param_tree_ind.
  intros Hwf path. apply WellFormed_inv in Hwf. destruct Hwf as (_ & Hnd & Hitems).
  (* the value synthesized for the Param without its Array flag passes *)
  assert (Hvalue : forall path',
             Mock.validJSON_at path' (Doc.mkParam name ty array items enums) false
               match ty with
               | Doc.None_ => Mock.JNull
               | Doc.Bool => Mock.JBool true
               | Doc.Number => Mock.JNumber 1024
               | Doc.String_ => Mock.JString "1024"
               | Doc.Object =>
                   Mock.JObject (map (fun q => (Doc.Name q, Mock.buildJSON q)) items)
               end = None).
  { intros path'. destruct ty; try reflexivity.
    cbn [Mock.validJSON_at Doc.PType Doc.PItems].
    apply (validJSON_fields path' (Doc.mkParam name Doc.Object array items enums) items).
    - intros q Hq. now apply findItem_NoDup.
    - intros q Hq. rewrite Forall_forall in IH, Hitems. apply IH; auto. }
  cbn [Mock.buildJSON Doc.PArray]. destruct array.
  - cbn [Mock.validJSON_at]. apply validJSON_repeat. apply Hvalue.
  - apply Hvalue.
Qed.

Lemma WellFormed_leaf (name : string) (ty : Doc.Type_) :
  ty <> Doc.Object -> Mock.WellFormed (Mock.leaf name ty).
Proof.
  intros H. constructor; [split; intros; congruence | simpl; constructor | constructor].
Qed.

Lemma NoDup_names2 (a b : string) : a <> b -> NoDup [a; b].
Proof.
  intros H. constructor; [intros [E | []]; congruence|].
  constructor; [intros [] | constructor].
Qed.

Lemma WellFormed_testTags : Mock.WellFormed Mock.testTags.
Proof.
  constructor.
  - split; [discriminate | reflexivity].
  - apply NoDup_names2. discriminate.
  - apply Forall_cons; [apply WellFormed_leaf; discriminate|].
    apply Forall_cons; [apply WellFormed_leaf; discriminate|].
    apply Forall_nil.
Qed.

(** The theorem at work on the array of objects of the test. *)
Lemma validJSON_buildJSON_witness :
  Mock.validJSON Mock.testTags (Mock.buildJSON Mock.testTags) = None.
Proof. apply validJSON_buildJSON. exact WellFormed_testTags. Defined.

(** * Further properties *)

(** ** internal/lang: what the block rules return *)

Section BlockLines.
Import Lang Text.
#[local] Arguments bytes : simpl never.
#[local] Arguments budget : simpl never.

Lemma skipn_cons_nth (buf : list byte) (p : nat) (c : byte) (rest : list byte) :
  skipn p buf = c :: rest ->
  nth_error buf p = Some c /\ skipn (S p) buf = rest /\ p < length buf.
Proof.
  revert p; induction buf as [|x buf IH]; intros [|p] H; simpl in *; try discriminate.
  - injection H as -> ->. repeat split. lia.
  - destruct (IH p H) as (H1 & H2 & H3). repeat split; auto. lia.
Qed.

Lemma skipn_nil_length (buf : list byte) (p : nat) :
  skipn p buf = [] -> length buf <= p.
Proof.
  intros H. apply (f_equal (@length byte)) in H. rewrite length_skipn in H. simpl in H. lia.
Qed.

Lemma slice_empty (buf : list byte) (p : nat) : slice buf p p = [].
Proof. unfold slice. now rewrite Nat.sub_diag. Qed.

Lemma slice_snoc (buf : list byte) (lo p : nat) (c : byte) (rest : list byte) :
  lo <= p -> skipn p buf = c :: rest -> slice buf lo (S p) = slice buf lo p ++ [c].
Proof.
  intros Hlo Hs. unfold slice.
  assert (Hsk : skipn (p - lo) (skipn lo buf) = c :: rest).
  { rewrite skipn_skipn. replace (p - lo + lo) with p by lia. exact Hs. }
  replace (S p - lo) with (S (p - lo)) by lia.
  generalize dependent (skipn lo buf). generalize (p - lo).
  intros n; induction n as [|n IH]; intros l Hl.
  - simpl in Hl. subst l. reflexivity.
  - destruct l as [|x l]; [discriminate|]. simpl in Hl. simpl. f_equal. now apply IH.
Qed.

Lemma slice_cons (buf : list byte) (p hi : nat) (c : byte) (rest : list byte) :
  p < hi -> skipn p buf = c :: rest -> slice buf p hi = c :: slice buf (S p) hi.
Proof.
  intros Hlt Hs. unfold slice. rewrite Hs.
  destruct (skipn_cons_nth _ _ _ _ Hs) as (_ & -> & _).
  replace (hi - p) with (S (hi - S p)) by lia. reflexivity.
Qed.

Lemma slice_nonempty (buf : list byte) (lo hi : nat) :
  lo < hi -> lo < length buf -> slice buf lo hi <> [].
Proof.
  intros H1 H2 E. apply (f_equal (@length byte)) in E. unfold slice in E.
  rewrite length_firstn, length_skipn in E. simpl in E. lia.
Qed.

Lemma firstOccurrence_in_ge (w rest : list byte) :
  forall p q, firstOccurrence_in w rest p = Some q -> p <= q.
Proof.
  induction rest as [|c rest IH]; intros p q H; simpl in H; [discriminate|].
  destruct (HasPrefix (c :: rest) w); [injection H as <-; lia|].
  apply IH in H. lia.
Qed.

(** [firstOccurrence] finds the first offset at which the token stands. *)
Lemma firstOccurrence_spec (word : string) (buf : list byte) (from : nat) :
  match firstOccurrence word buf from with
  | Some p => from <= p < length buf /\ occurs word buf p = true /\
              forall q, from <= q < p -> occurs word buf q = false
  | None => forall q, from <= q < length buf -> occurs word buf q = false
  end.
Proof.
  unfold firstOccurrence, occurs.
  remember (skipn from buf) as rest eqn:Hrest. revert from Hrest.
  induction rest as [|c rest IH]; intros from Hrest; simpl.
  - intros q Hq. symmetry in Hrest. apply skipn_nil_length in Hrest. lia.
  - symmetry in Hrest. destruct (skipn_cons_nth _ _ _ _ Hrest) as (_ & Hnext & Hlt).
    destruct (HasPrefix (c :: rest) (bytes word)) eqn:Hp.
    + repeat split; try lia; try (now rewrite Hrest); intros q Hq; lia.
    + specialize (IH (S from) (eq_sym Hnext)).
      destruct (firstOccurrence_in (bytes word) rest (S from)) as [p|].
      * destruct IH as (Hb & Ho & Hn). repeat split; try lia; auto.
        intros q Hq. destruct (Nat.eq_dec q from) as [-> | Hne].
        -- now rewrite Hrest.
        -- apply Hn. lia.
      * intros q Hq. destruct (Nat.eq_dec q from) as [-> | Hne].
        -- now rewrite Hrest.
        -- apply IH. lia.
Qed.

Lemma setPos_same (l : lexer) : setPos l (pos l) = l.
Proof. now destruct l. Qed.

Lemma endMComments_spec (b : block) (fuel : nat) :
  forall l start ls,
    start <= pos l -> length (data l) - pos l < fuel ->
    endMComments fuel b l start ls =
      match firstOccurrence (End_ b) (data l) (pos l) with
      | Some p =>
          Ok (Some (ls ++ map (fun c => filterSymbols c (Escape b))
                            (splitLines_from (slice (data l) start (pos l))
                                             (slice (data l) (pos l) p))), true)
             (setPos l (p + length (bytes (End_ b))))
      | None => Ok (None, false) (setPos l (Nat.max (pos l) (length (data l))))
      end.
Proof.
  induction fuel as [|fuel IH]; intros l start ls Hstart Hf; [lia|].
  cbn [endMComments]. unfold firstOccurrence.
  destruct (atEOF l) eqn:Heof.
  - apply atEOF_true in Heof. rewrite skipn_all2 by exact Heof. simpl.
    rewrite Nat.max_l by exact Heof. now rewrite setPos_same.
  - apply atEOF_false in Heof.
    destruct (skipn (pos l) (data l)) as [|c rest] eqn:Hs.
    { apply skipn_nil_length in Hs. lia. }
    destruct (skipn_cons_nth _ _ _ _ Hs) as (Hnth & Hnext & _).
    unfold match_. rewrite Hs. cbn [firstOccurrence_in].
    destruct (HasPrefix (c :: rest) (bytes (End_ b))) eqn:Hp.
    + cbn [data pos setPos]. rewrite <- length_bytes.
      replace (pos l + length (bytes (End_ b)) - length (bytes (End_ b))) with (pos l) by lia.
      rewrite slice_empty. cbn [splitLines_from].
      destruct (start <? pos l) eqn:Hlt.
      * apply Nat.ltb_lt in Hlt.
        destruct (slice (data l) start (pos l)) eqn:E.
        { exfalso. revert E. apply slice_nonempty; lia. }
        reflexivity.
      * apply Nat.ltb_ge in Hlt. replace start with (pos l) by lia.
        rewrite slice_empty. simpl. now rewrite app_nil_r.
    + rewrite Hnth.
      assert (Hfo : firstOccurrence_in (bytes (End_ b)) rest (S (pos l))
                    = firstOccurrence (End_ b) (data (setPos l (pos l + 1)))
                        (pos (setPos l (pos l + 1)))).
      { unfold firstOccurrence. cbn [data pos setPos].
        now rewrite Nat.add_1_r, Hnext. }
      rewrite Hfo.
      destruct (Byte.eqb c newline) eqn:Hc.
      * rewrite IH by (cbn [data pos setPos]; lia).
        rewrite <- Hfo.
        destruct (firstOccurrence_in (bytes (End_ b)) rest (S (pos l))) as [p|] eqn:Hfirst.
        -- apply firstOccurrence_in_ge in Hfirst.
           cbn [data pos setPos]. rewrite slice_empty.
           rewrite (slice_cons (data l) (pos l) p c rest) by (try lia; exact Hs).
           cbn [splitLines_from]. rewrite Hc.
           rewrite Nat.add_1_r.
           rewrite (slice_snoc (data l) start (pos l) c rest Hstart Hs).
           cbn [map]. now rewrite <- app_assoc.
        -- unfold setPos. cbn [data pos]. do 2 f_equal. lia.
      * rewrite IH by (cbn [data pos setPos]; lia).
        rewrite <- Hfo.
        destruct (firstOccurrence_in (bytes (End_ b)) rest (S (pos l))) as [p|] eqn:Hfirst.
        -- apply firstOccurrence_in_ge in Hfirst.
           cbn [data pos setPos].
           rewrite (slice_cons (data l) (pos l) p c rest) by (try lia; exact Hs).
           cbn [splitLines_from]. rewrite Hc.
           rewrite Nat.add_1_r.
           now rewrite (slice_snoc (data l) start (pos l) c rest Hstart Hs).
        -- unfold setPos. cbn [data pos]. do 2 f_equal. lia.
Qed.


(** What [filterSymbols] can return. *)
Lemma filterSymbols_cases (line : list byte) (charset : string) :
  filterSymbols line charset = line \/
  (filterSymbols line charset = [newline] /\ 2 <= length line) \/
  (exists pre nx tl, line = pre ++ nx :: tl /\ pre <> [] /\
                     filterSymbols line charset = nx :: tl).
Proof.
  unfold filterSymbols. destruct (String.length charset =? 0); [left; reflexivity|].
  pose proof (filterSymbols_range_spec charset [] line) as Hspec.
  cbn [app length] in Hspec. rewrite Hspec. unfold filtered.
  pose proof (firstn_skipn (spaces line) line) as Hsplit.
  destruct (skipn (spaces line) line) as [|v [|nx tl]]; try (left; reflexivity).
  destruct ((0 <=? IndexByte charset v)%Z && IsSpace nx); [|left; reflexivity].
  destruct (Byte.eqb nx newline).
  - right; left. split; [reflexivity|]. rewrite <- Hsplit, length_app. simpl. lia.
  - right; right. exists (firstn (spaces line) line ++ [v]), nx, tl.
    split; [now rewrite <- app_assoc|]. split; [|reflexivity].
    intros E. apply app_eq_nil in E. destruct E as [_ E]. discriminate.
Qed.

Lemma filterSymbols_keeps_newline (body : list byte) (charset : string) :
  endsWithNewline (filterSymbols (body ++ [newline]) charset).
Proof.
  destruct (filterSymbols_cases (body ++ [newline]) charset)
    as [-> | [[-> _] | (pre & nx & tl & Hline & _ & ->)]].
  - now exists body.
  - now exists [].
  - destruct (exists_last (l := nx :: tl)) as (init & z & E); [discriminate|].
    rewrite E in *. rewrite app_assoc in Hline.
    apply app_inj_tail in Hline. destruct Hline as [_ <-]. now exists init.
Qed.

Lemma filterSymbols_nonempty (line : list byte) (charset : string) :
  line <> [] -> filterSymbols line charset <> [].
Proof.
  intros Hne.
  destruct (filterSymbols_cases line charset)
    as [-> | [[-> _] | (pre & nx & tl & _ & _ & ->)]]; [exact Hne | discriminate | discriminate].
Qed.

(** *** endString without an escape *)

Lemma endString_spec (b : block) (fuel : nat) :
  Escape b = "" ->
  forall l, length (data l) - pos l < fuel ->
    endString fuel b l =
      match firstOccurrence (End_ b) (data l) (pos l) with
      | Some p => Ok (None, true) (setPos l (p + length (bytes (End_ b))))
      | None => Ok (None, false) (setPos l (Nat.max (pos l) (length (data l))))
      end.
Proof.
  intros Hesc. induction fuel as [|fuel IH]; intros l Hf; [lia|].
  rewrite endString_unfold, Hesc. cbn [String.length Nat.ltb Nat.leb].
  unfold firstOccurrence.
  destruct (atEOF l) eqn:Heof.
  - apply atEOF_true in Heof. rewrite skipn_all2 by exact Heof. simpl.
    rewrite Nat.max_l by exact Heof. now rewrite setPos_same.
  - apply atEOF_false in Heof.
    destruct (skipn (pos l) (data l)) as [|c rest] eqn:Hs.
    { apply skipn_nil_length in Hs. lia. }
    destruct (skipn_cons_nth _ _ _ _ Hs) as (_ & Hnext & _).
    unfold match_. rewrite Hs. cbn [firstOccurrence_in].
    destruct (HasPrefix (c :: rest) (bytes (End_ b))); [reflexivity|].
    rewrite IH by (cbn [data pos setPos]; lia).
    unfold firstOccurrence. cbn [data pos setPos]. rewrite Nat.add_1_r, Hnext.
    destruct (firstOccurrence_in (bytes (End_ b)) rest (S (pos l))); [reflexivity|].
    unfold setPos. cbn [data pos]. do 2 f_equal. lia.
Qed.

(** *** The lines of endSComments *)

Lemma readLine_newline (fuel : nat) :
  forall l l1, readLine fuel l = LineNL l1 ->
    data l1 = data l /\ pos l < pos l1 < length (data l) /\
    exists rest, skipn (pos l1 - 1) (data l) = newline :: rest.
Proof.
  induction fuel as [|fuel IH]; intros l l1 H; [discriminate|].
  simpl in H. destruct (nth_error (data l) (pos l)) as [r|] eqn:Hr; [|discriminate].
  destruct (atEOF (setPos l (pos l + 1))) eqn:Heof; [discriminate|].
  apply atEOF_false in Heof. cbn [data pos setPos] in Heof.
  destruct (Byte.eqb r newline) eqn:Hnl.
  - injection H as <-. apply byte_eqb_eq in Hnl. subst r. cbn [data pos setPos].
    split; [reflexivity|]. split; [lia|].
    replace (pos l + 1 - 1) with (pos l) by lia.
    apply nth_error_split in Hr. destruct Hr as (l1 & l2 & Hd & Hlen).
    exists l2. rewrite Hd, <- Hlen.
    rewrite skipn_app, skipn_all, Nat.sub_diag. reflexivity.
  - apply IH in H. cbn [data pos setPos] in H. destruct H as (Hd & Hp & rest & Hs).
    split; [exact Hd|]. split; [lia|]. now exists rest.
Qed.

Lemma readLine_EOF (fuel : nat) :
  forall l l1, readLine fuel l = LineEOF l1 ->
    data l1 = data l /\ pos l < pos l1 /\ pos l1 = length (data l).
Proof.
  induction fuel as [|fuel IH]; intros l l1 H; [discriminate|].
  simpl in H. destruct (nth_error (data l) (pos l)) as [r|] eqn:Hr; [|discriminate].
  assert (Hin : pos l < length (data l)) by (apply nth_error_Some; congruence).
  destruct (atEOF (setPos l (pos l + 1))) eqn:Heof.
  - injection H as <-. apply atEOF_true in Heof. cbn [data pos setPos] in *.
    repeat split; lia.
  - apply atEOF_false in Heof. cbn [data pos setPos] in Heof.
    destruct (Byte.eqb r newline); [discriminate|].
    apply IH in H. cbn [data pos setPos] in H. destruct H as (Hd & Hp & Hlen).
    repeat split; auto; lia.
Qed.

Lemma slice_ends_with (buf : list byte) (lo hi : nat) (c : byte) (rest : list byte) :
  lo < hi -> skipn (hi - 1) buf = c :: rest -> exists body, slice buf lo hi = body ++ [c].
Proof.
  intros Hlt Hs. exists (slice buf lo (hi - 1)).
  replace hi with (S (hi - 1)) at 1 by lia.
  apply (slice_snoc buf lo (hi - 1) c rest); [lia | exact Hs].
Qed.

Lemma spaces_le (rest : list byte) : spaces rest <= length rest.
Proof.
  induction rest as [|v rest IH]; simpl; [lia|]. destruct (skippable v); simpl; lia.
Qed.

Lemma skipSpace_bound (l : lexer) :
  pos l <= length (data l) -> pos l <= pos (skipSpace l) <= length (data l).
Proof.
  intros H. unfold skipSpace. cbn [pos setPos].
  pose proof (spaces_le (skipn (pos l) (data l))) as Hs. rewrite length_skipn in Hs. lia.
Qed.

Lemma endSComments_shaped (b : block) (fuel : nat) :
  forall l ls, endSComments_shape l ls (endSComments fuel b l ls).
Proof.
  induction fuel as [|fuel IH]; intros l ls; [exact I|].
  cbn [endSComments].
  destruct (readLine (S fuel) l) as [l1 | l1 | |] eqn:Hread; try exact I.
  - (* the buffer ended *)
    apply readLine_EOF in Hread. destruct Hread as (Hd & Hp & Hlen).
    unfold endSComments_return. rewrite length_app, Nat.add_1_r.
    cbn [Nat.ltb Nat.leb endSComments_shape data pos setPos].
    split; [reflexivity|]. split.
    + exists [], (slice (data l1) (pos l) (pos l1)). split; [reflexivity|].
      split; [constructor|]. rewrite Hd. apply slice_nonempty; lia.
    + split; [exact Hd | lia].
  - (* the line ended *)
    apply readLine_newline in Hread. destruct Hread as (Hd & Hp & rest & Hs).
    assert (Hline : endsWithNewline
                      (filterSymbols (slice (data l1) (pos l) (pos l1)) (Escape b))).
    { rewrite Hd. destruct (slice_ends_with (data l) (pos l) (pos l1) newline rest)
        as (body & ->); [lia | exact Hs |]. apply filterSymbols_keeps_newline. }
    set (line := filterSymbols (slice (data l1) (pos l) (pos l1)) (Escape b)) in *.
    assert (Hsk : pos l1 <= pos (skipSpace l1) <= length (data l))
      by (rewrite <- Hd; apply skipSpace_bound; rewrite Hd; lia).
    destruct (match_ (skipSpace l1) (Begin b)) as [again l2] eqn:Hm.
    destruct again.
    + apply match_true in Hm. destruct Hm as [_ Hl2].
      specialize (IH l2 (ls ++ [line])).
      destruct (endSComments fuel b l2 (ls ++ [line])) as [[r ok] l' | |]; try exact I.
      cbn [endSComments_shape] in *.
      destruct IH as (Hok & (more & last & Hr & Hmore & Hlast) & Hd' & Hp').
      subst l2. cbn [data pos setPos skipSpace] in *.
      split; [exact Hok|]. split.
      * exists (line :: more), last. split; [|split; [constructor; assumption | exact Hlast]].
        rewrite Hr. now rewrite <- app_assoc.
      * split; [congruence|]. rewrite Hd in Hp'. lia.
    + unfold match_ in Hm. destruct (HasPrefix _ _); [discriminate|].
      injection Hm as <-.
      unfold endSComments_return. rewrite length_app, Nat.add_1_r.
      cbn [Nat.ltb Nat.leb endSComments_shape].
      split; [reflexivity|]. split.
      * exists [], line. split; [reflexivity|]. split; [constructor|].
        destruct Hline as (body & ->). intros E. apply app_eq_nil in E.
        destruct E as [_ E]. discriminate.
      * cbn [data pos setPos skipSpace] in *. split; [exact Hd | lia].
Qed.


Lemma concat_splitLines_from (body : list byte) :
  forall cur, concat (splitLines_from cur body) = cur ++ body.
Proof.
  induction body as [|c body IH]; intros cur; simpl.
  - destruct cur; simpl; [reflexivity | now rewrite !app_nil_r].
  - destruct (Byte.eqb c newline); simpl; rewrite IH; [|now rewrite <- app_assoc].
    now rewrite <- app_assoc.
Qed.

Lemma splitLines_from_nonempty (body : list byte) :
  forall cur, Forall (fun chunk => chunk <> []) (splitLines_from cur body).
Proof.
  induction body as [|c body IH]; intros cur; simpl.
  - destruct cur; constructor; [discriminate | constructor].
  - destruct (Byte.eqb c newline); [|apply IH].
    constructor; [|apply IH]. intros E. apply app_eq_nil in E. destruct E as [_ E].
    discriminate.
Qed.

Lemma firstn_plus (a b : nat) :
  forall buf : list byte, firstn (a + b) buf = firstn a buf ++ firstn b (skipn a buf).
Proof.
  induction a as [|a IH]; intros buf; [reflexivity|].
  destruct buf as [|x buf]; simpl; [now rewrite firstn_nil | now rewrite IH].
Qed.

Lemma slice_app (buf : list byte) (lo mid hi : nat) :
  lo <= mid <= hi -> slice buf lo hi = slice buf lo mid ++ slice buf mid hi.
Proof.
  intros H. unfold slice.
  replace (hi - lo) with ((mid - lo) + (hi - mid)) by lia.
  rewrite firstn_plus, skipn_skipn.
  replace (mid - lo + lo) with mid by lia. reflexivity.
Qed.

Lemma slice_occurs (word : string) (buf : list byte) (p : nat) :
  occurs word buf p = true -> slice buf p (p + length (bytes word)) = bytes word.
Proof.
  unfold occurs, HasPrefix, slice. rewrite andb_true_iff, bytes_eqb_eq.
  intros [_ H]. now replace (p + length (bytes word) - p) with (length (bytes word)) by lia.
Qed.

End BlockLines.

(** [filterSymbols] only ever removes from the front of a line.  Its result
    is never longer than the line; it is a suffix of the line, or the single
    newline that stands for a line holding nothing but the marker; it is
    empty only for the empty line; and a line that ends with a newline still
    ends with one afterwards. *)
Theorem filterSymbols_removes_prefix (line body : list byte) (charset : string) :
  length (Lang.filterSymbols line charset) <= length line /\
  ((exists pre, line = pre ++ Lang.filterSymbols line charset) \/
   Lang.filterSymbols line charset = [newline]) /\
  (line = [] \/ Lang.filterSymbols line charset <> []) /\
  Text.endsWithNewline (Lang.filterSymbols (body ++ [newline]) charset).
Proof.
  split; [|split; [|split]].
  - destruct (filterSymbols_cases line charset)
      as [-> | [[-> H] | (pre & nx & tl & Hline & _ & ->)]]; [lia | simpl; lia |].
    rewrite Hline, length_app. lia.
  - destruct (filterSymbols_cases line charset)
      as [E | [[E _] | (pre & nx & tl & Hline & _ & E)]].
    + left. exists []. now rewrite E.
    + now right.
    + left. exists pre. now rewrite E.
  - destruct line as [|c line]; [now left | right].
    apply filterSymbols_nonempty. discriminate.
  - apply filterSymbols_keeps_newline.
Qed.

(** What [EndFunc] returns for a multi-line comment rule, wherever the
    cursor stands.  If the End token occurs at or after the cursor, the
    result is the text between the cursor and the first such occurrence, cut
    behind each newline, every piece passed through [filterSymbols], and the
    cursor is left just behind that End token.  The pieces are never empty
    and, put together, are that text.  If the token does not occur, the
    result is (nil, false) with the cursor at the end of the buffer. *)
Theorem endMComments_lines (begin end_ escape : string) (l : Lang.lexer) :
  let b := Lang.mkBlock Lang.blockTypeMComment begin end_ escape in
  Lang.EndFunc b l =
    match Text.firstOccurrence end_ (Lang.data l) (Lang.pos l) with
    | Some p =>
        Lang.Ok (Some (map (fun chunk => Lang.filterSymbols chunk escape)
                         (Text.splitLines (slice (Lang.data l) (Lang.pos l) p))), true)
                (Lang.setPos l (p + length (bytes end_)))
    | None =>
        Lang.Ok (None, false) (Lang.setPos l (Nat.max (Lang.pos l) (length (Lang.data l))))
    end /\
  match Text.firstOccurrence end_ (Lang.data l) (Lang.pos l) with
  | Some p =>
      Lang.pos l <= p < length (Lang.data l) /\ Lang.occurs end_ (Lang.data l) p = true /\
      (forall q, Lang.pos l <= q < p -> Lang.occurs end_ (Lang.data l) q = false) /\
      concat (Text.splitLines (slice (Lang.data l) (Lang.pos l) p))
      = slice (Lang.data l) (Lang.pos l) p /\
      Forall (fun chunk => chunk <> []) (Text.splitLines (slice (Lang.data l) (Lang.pos l) p))
  | None =>
      forall q, Lang.pos l <= q < length (Lang.data l) ->
                Lang.occurs end_ (Lang.data l) q = false
  end.
Proof.
  intros b. split.
  - unfold Lang.EndFunc. cbn [Lang.Type_ b].
    rewrite (endMComments_spec b (Lang.budget l) l (Lang.pos l) [])
      by (unfold Lang.budget; lia).
    cbn [Lang.End_ Lang.Escape b]. rewrite slice_empty. reflexivity.
  - pose proof (firstOccurrence_spec end_ (Lang.data l) (Lang.pos l)) as H.
    destruct (Text.firstOccurrence end_ (Lang.data l) (Lang.pos l)) as [p|]; [|exact H].
    destruct H as (H1 & H2 & H3). repeat split; auto; try lia.
    + apply concat_splitLines_from.
    + apply splitLines_from_nonempty.
Qed.

(** With no Escape characters to filter, a multi-line comment rule loses
    nothing: the lines it returns, followed by the End token, are the bytes
    the cursor has passed. *)
Theorem endMComments_lossless (begin end_ : string) (l l' : Lang.lexer)
        (ls : list (list byte)) :
  Lang.EndFunc (Lang.mkBlock Lang.blockTypeMComment begin end_ "") l
  = Lang.Ok (Some ls, true) l' ->
  concat ls ++ bytes end_ = slice (Lang.data l) (Lang.pos l) (Lang.pos l').
Proof.
  unfold Lang.EndFunc. cbn [Lang.Type_].
  rewrite (endMComments_spec _ (Lang.budget l) l (Lang.pos l) [])
    by (unfold Lang.budget; lia).
  cbn [Lang.End_ Lang.Escape]. rewrite slice_empty.
  pose proof (firstOccurrence_spec end_ (Lang.data l) (Lang.pos l)) as H.
  destruct (Text.firstOccurrence end_ (Lang.data l) (Lang.pos l)) as [p|]; [|discriminate].
  destruct H as (H1 & H2 & _). intros [= <- <-]. cbn [Lang.pos Lang.setPos app].
  rewrite (slice_app (Lang.data l) (Lang.pos l) p (p + length (bytes end_))) by lia.
  rewrite (slice_occurs _ _ _ H2). f_equal.
  rewrite map_ext with (g := fun chunk => chunk) by reflexivity.
  rewrite map_id. apply concat_splitLines_from.
Qed.

(** The theorem on a comment of two lines in the style of C, the cursor
    behind the opening token. *)
Lemma endMComments_lossless_witness :
  concat [bytes " a" ++ [newline]; bytes " b "] ++ bytes "*/"
  = slice (bytes "/* a" ++ [newline] ++ bytes " b */") 2 10.
Proof.
  apply (endMComments_lossless "/*" "*/"
           (Lang.mkLexer (bytes "/* a" ++ [newline] ++ bytes " b */") 2)
           (Lang.mkLexer (bytes "/* a" ++ [newline] ++ bytes " b */") 10)).
  reflexivity.
Defined.

(** What [EndFunc] returns for a string rule without an escape: it stops
    just behind the first occurrence of the End token at or after the
    cursor, with (nil, true); when the token does not occur it ends at the
    end of the buffer with (nil, false). *)
Theorem endString_without_escape (begin end_ : string) (l : Lang.lexer) :
  Lang.EndFunc (Lang.mkBlock Lang.blockTypeString begin end_ "") l =
    match Text.firstOccurrence end_ (Lang.data l) (Lang.pos l) with
    | Some p => Lang.Ok (None, true) (Lang.setPos l (p + length (bytes end_)))
    | None =>
        Lang.Ok (None, false) (Lang.setPos l (Nat.max (Lang.pos l) (length (Lang.data l))))
    end /\
  match Text.firstOccurrence end_ (Lang.data l) (Lang.pos l) with
  | Some p =>
      Lang.pos l <= p < length (Lang.data l) /\ Lang.occurs end_ (Lang.data l) p = true /\
      forall q, Lang.pos l <= q < p -> Lang.occurs end_ (Lang.data l) q = false
  | None =>
      forall q, Lang.pos l <= q < length (Lang.data l) ->
                Lang.occurs end_ (Lang.data l) q = false
  end.
Proof.
  split.
  - unfold Lang.EndFunc. cbn [Lang.Type_].
    now rewrite (endString_spec (Lang.mkBlock Lang.blockTypeString begin end_ "")
                   (Lang.budget l) eq_refl l)
      by (unfold Lang.budget; lia).
  - apply firstOccurrence_spec.
Qed.

(** Whenever [EndFunc] returns for a single-line comment rule, the flag is
    true and there is at least one line; every line but the last ends with
    its newline, the last one is not empty; the buffer is untouched and the
    cursor is left inside the buffer, not before the place it started. *)
Theorem endSComments_result_shape (begin end_ escape : string) (l l' : Lang.lexer)
        (r : option (list (list byte))) (ok : bool) :
  Lang.EndFunc (Lang.mkBlock Lang.blockTypeSComment begin end_ escape) l
  = Lang.Ok (r, ok) l' ->
  ok = true /\
  (exists more last, r = Some (more ++ [last]) /\
                     Forall Text.endsWithNewline more /\ last <> []) /\
  Lang.data l' = Lang.data l /\
  Lang.pos l <= Lang.pos l' < length (Lang.data l).
Proof.
  unfold Lang.EndFunc. cbn [Lang.Type_]. intros H.
  pose proof (endSComments_shaped
                (Lang.mkBlock Lang.blockTypeSComment begin end_ escape)
                (Lang.budget l) l []) as Hs.
  rewrite H in Hs. exact Hs.
Qed.

(** The theorem on two adjacent [//] comments: the first line keeps its
    newline, the second is cut off by the end of the buffer. *)
Lemma endSComments_result_shape_witness :
  exists more last,
    Some [bytes " one" ++ [newline]; bytes " two"] = Some (more ++ [last]) /\
    Forall Text.endsWithNewline more /\ last <> [].
Proof.
  destruct (endSComments_result_shape "//" "" ""
              (Lang.mkLexer (bytes "// one" ++ [newline] ++ bytes "// two") 2)
              (Lang.mkLexer (bytes "// one" ++ [newline] ++ bytes "// two") 12)
              (Some [bytes " one" ++ [newline]; bytes " two"]) true)
    as (_ & H & _); [reflexivity | exact H].
Defined.

(** ** input and doc: dispatch and required fields *)

Lemma HasPrefix_trans (data long short : list byte) :
  HasPrefix data long = true -> HasPrefix long short = true ->
  HasPrefix data short = true.
Proof.
  unfold HasPrefix. rewrite !andb_true_iff, !Nat.leb_le, !bytes_eqb_eq.
  intros [Hl2 He2] [Hl1 He1]. split; [lia|].
  assert (Hff : firstn (length short) (firstn (length long) data)
                = firstn (length short) data)
    by (rewrite firstn_firstn; f_equal; lia).
  rewrite <- Hff, He2. exact He1.
Qed.

(** The two cases of [parseBlock].  A block that starts with the apidoc
    marker also starts with the api marker, so it is the order of the cases
    that sends it to the document's [FromXML] (and never to [NewAPI]); a
    block that starts with the api marker followed by anything but a [d]
    goes to [NewAPI(...).FromXML].  Either way the handler is called once,
    with the record built around the error returned, nil or not. *)
Theorem parseBlock_dispatch (Doc error Handler : Type)
        (FromXML : Doc -> list byte -> Doc * option error)
        (NewAPI_FromXML : Doc -> string -> Z -> list byte -> Doc * option error)
        (WithError : string -> string -> Z -> option error -> error)
        (Handler_Error : Handler -> Input.msgType -> error -> Handler)
        (d : Doc) (blk : Input.block) (h : Handler) :
  let run := Input.parseBlock Doc error Handler FromXML NewAPI_FromXML WithError
               Handler_Error d blk h in
  let told err := Handler_Error h Input.Erro
                    (WithError (Input.File blk) "" (Input.Line blk) err) in
  (HasPrefix (Input.Data blk) Input.apidocBegin = true ->
   HasPrefix (Input.Data blk) Input.apiBegin = true /\
   run = (fst (FromXML d (Input.Data blk)), told (snd (FromXML d (Input.Data blk))))) /\
  (HasPrefix (Input.Data blk) Input.apidocBegin = false ->
   HasPrefix (Input.Data blk) Input.apiBegin = true ->
   run = (fst (NewAPI_FromXML d (Input.File blk) (Input.Line blk) (Input.Data blk)),
          told (snd (NewAPI_FromXML d (Input.File blk) (Input.Line blk) (Input.Data blk))))) /\
  (forall rest, Input.Data blk = Input.apidocBegin ++ rest ->
                HasPrefix (Input.Data blk) Input.apidocBegin = true) /\
  (forall c rest, Input.Data blk = Input.apiBegin ++ c :: rest -> c <> "d"%byte ->
                  HasPrefix (Input.Data blk) Input.apidocBegin = false /\
                  HasPrefix (Input.Data blk) Input.apiBegin = true).
Proof.
  intros run told. subst run told. unfold Input.parseBlock.
  split; [|split; [|split]].
  - intros Hdoc. rewrite Hdoc. split.
    + apply (HasPrefix_trans _ _ _ Hdoc). reflexivity.
    + now destruct (FromXML d (Input.Data blk)).
  - intros Hdoc Hapi. rewrite Hdoc, Hapi.
    now destruct (NewAPI_FromXML d (Input.File blk) (Input.Line blk) (Input.Data blk)).
  - intros rest ->. apply HasPrefix_app.
  - intros c rest -> Hc. split; [|apply HasPrefix_app].
    destruct (HasPrefix (Input.apiBegin ++ c :: rest) Input.apidocBegin) eqn:E; [|reflexivity].
    exfalso. apply Hc. unfold HasPrefix in E. apply andb_true_iff in E.
    destruct E as [_ E]. apply bytes_eqb_eq in E. cbv in E.
    destruct rest as [|r1 [|r2 rest]]; now inversion E.
Qed.

(** The theorem on an apidoc block, with a handler that keeps what it is
    handed: the document's [FromXML] ran, and the handler holds one record
    around a nil error. *)
Lemma parseBlock_dispatch_witness :
  Input.parseBlock (list string) Input.report Input.logHandler
    (fun d _ => ("doc" :: d, None)) (fun d _ _ _ => ("api" :: d, None))
    Input.WithErr Input.logError [] (Input.mkBlock "a.go" 3 (bytes "<apidoc version=1>")) []
  = (["doc"], [(Input.Erro, Input.WithErr "a.go" "" 3 None)]).
Proof.
  destruct (parseBlock_dispatch (list string) Input.report Input.logHandler
              (fun d _ => ("doc" :: d, None)) (fun d _ _ _ => ("api" :: d, None))
              Input.WithErr Input.logError []
              (Input.mkBlock "a.go" 3 (bytes "<apidoc version=1>")) []) as [H _].
  destruct (H eq_refl) as [_ Hrun]. exact Hrun.
Defined.

(** The required-field checks of [Request.UnmarshalXML], which come before
    the duplicate checks: a missing type, an Object without items and a
    missing mimetype are refused, in this order, each with its own field
    path.  Whatever the error, that of the decoder included, [*r] keeps its
    old value, and it takes the decoded value only when there is none.
    [Callback.UnmarshalXML] decodes into [*c] itself: what the decoder
    leaves there stays, when the callback is refused by a check and also
    when the decoder itself fails.  (Nothing here depends on how duplicates
    are searched.) *)
Theorem UnmarshalXML_required_and_stored (decodeError : Type) (ToUpper : string -> string)
        (r shadow : Doc.Request) (c cshadow : Doc.Callback) (local : string) :
  let res := Doc.Request_UnmarshalXML decodeError r local (inr shadow) in
  let field := ("/" ++ local)%string in
  (forall err,
      Doc.Request_UnmarshalXML decodeError r local (inl err)
      = (r, Some (Doc.fixedSyntaxError err "" field 0))) /\
  (forall decoded e,
      snd (Doc.Request_UnmarshalXML decodeError r local decoded) = Some e ->
      fst (Doc.Request_UnmarshalXML decodeError r local decoded) = r) /\
  (forall err partial,
      Doc.Callback_UnmarshalXML decodeError ToUpper c local (inl (err, partial))
      = (partial, Some (Doc.fixedSyntaxError err "" field 0))) /\
  (Doc.RType shadow = Doc.None_ ->
   res = (r, Some (Doc.newSyntaxError (field ++ "#type") ErrRequired))) /\
  (Doc.RType shadow = Doc.Object -> Doc.Items shadow = [] ->
   res = (r, Some (Doc.newSyntaxError (field ++ "/item") ErrRequired))) /\
  (Doc.RType shadow <> Doc.None_ ->
   (Doc.RType shadow = Doc.Object -> Doc.Items shadow <> []) ->
   Doc.Mimetype shadow = "" ->
   res = (r, Some (Doc.newSyntaxError (field ++ "#mimetype") ErrRequired))) /\
  (forall e, snd res = Some e -> fst res = r) /\
  (snd res = None ->
   fst res = shadow /\ Doc.RType shadow <> Doc.None_ /\ Doc.Mimetype shadow <> "" /\
   (Doc.RType shadow = Doc.Object -> Doc.Items shadow <> [])) /\
  fst (Doc.Callback_UnmarshalXML decodeError ToUpper c local (inr cshadow)) = cshadow.
Proof.
  intros res field. subst res field. unfold Doc.Request_UnmarshalXML, Doc.Callback_UnmarshalXML.
  split; [reflexivity|].
  split.
  { intros [err | decoded] e; [reflexivity|].
    destruct (Doc.Type_eqb (Doc.RType decoded) Doc.None_); [reflexivity|].
    destruct (Doc.Type_eqb (Doc.RType decoded) Doc.Object && (length (Doc.Items decoded) =? 0));
      [reflexivity|].
    destruct (String.eqb (Doc.Mimetype decoded) ""); [reflexivity|].
    destruct (negb (String.eqb (Doc.getDuplicateEnum (Doc.Enums decoded)) ""));
      [reflexivity|].
    destruct (negb (String.eqb (Doc.getDuplicateItems (Doc.Items decoded)) ""));
      [reflexivity | discriminate]. }
  split; [reflexivity|].
  split; [intros ->; reflexivity|].
  split; [intros -> ->; reflexivity|].
  split.
  { intros Hty Hobj ->.
    destruct (Doc.RType shadow) eqn:E; try congruence; try reflexivity.
    destruct (Doc.Items shadow); [now elim Hobj | reflexivity]. }
  split.
  { intros e.
    destruct (Doc.Type_eqb (Doc.RType shadow) Doc.None_); [reflexivity|].
    destruct (Doc.Type_eqb (Doc.RType shadow) Doc.Object && (length (Doc.Items shadow) =? 0));
      [reflexivity|].
    destruct (String.eqb (Doc.Mimetype shadow) ""); [reflexivity|].
    destruct (negb (String.eqb (Doc.getDuplicateEnum (Doc.Enums shadow)) ""));
      [reflexivity|].
    destruct (negb (String.eqb (Doc.getDuplicateItems (Doc.Items shadow)) ""));
      [reflexivity | discriminate]. }
  split.
  { destruct (Doc.RType shadow) eqn:Ety; cbn [Doc.Type_eqb andb]; try discriminate;
      try (destruct (Doc.Items shadow) eqn:Eit; cbn [length Nat.eqb]; try discriminate);
      (destruct (String.eqb_spec (Doc.Mimetype shadow) ""); [discriminate|]);
      (destruct (negb (String.eqb (Doc.getDuplicateEnum (Doc.Enums shadow)) ""));
       [discriminate|]);
      (destruct (negb (String.eqb (Doc.getDuplicateItems _) "")); [discriminate|]);
      intros _; repeat split; try congruence; try discriminate. }
  destruct (String.eqb _ ""); [reflexivity|].
  destruct (_ && _); [reflexivity|]. destruct (_ =? 0); reflexivity.
Qed.

(** The theorem at work: an Object without items is refused, and the
    Request that was there stays; a callback the decoder fails on is left
    as the decoder left it. *)
Lemma UnmarshalXML_required_and_stored_witness :
  Doc.Request_UnmarshalXML unit (enumRequest Doc.String_ ["old"]) "request"
    (inr (Doc.mkRequest Doc.Object [] false [] "" "" "json" ""))
  = (enumRequest Doc.String_ ["old"],
     Some (Doc.newSyntaxError "/request/item" ErrRequired)) /\
  Doc.Callback_UnmarshalXML unit Doc.ToUpperASCII
    (Doc.mkCallback "https" "" "" "GET" [] "" [] []) "Callback" (inl (tt, sampleCallback))
  = (sampleCallback, Some (Doc.fixedSyntaxError tt "" "/Callback" 0)).
Proof.
  split.
  - destruct (UnmarshalXML_required_and_stored unit Doc.ToUpperASCII
                (enumRequest Doc.String_ ["old"])
                (Doc.mkRequest Doc.Object [] false [] "" "" "json" "")
                sampleCallback sampleCallback "request")
      as (_ & _ & _ & _ & H & _).
    apply H; reflexivity.
  - destruct (UnmarshalXML_required_and_stored unit Doc.ToUpperASCII
                (enumRequest Doc.String_ ["old"])
                (Doc.mkRequest Doc.Object [] false [] "" "" "json" "")
                (Doc.mkCallback "https" "" "" "GET" [] "" [] []) sampleCallback "Callback")
      as (_ & _ & H & _).
    apply H.
Defined.

(** ** openapi: the sanitize methods *)

Section OpenAPIFacts.
Import OpenAPI.

Variables Header Link Schema Style : Type.
Variable Header_sanitize : Header -> option SyntaxError.
Variable Link_sanitize : Link -> option SyntaxError.
Variable Schema_sanitize : Schema -> option SyntaxError.
Variable Style_sanitize : Style -> option SyntaxError.

Lemma rangeSanitize_None (V : Type) (label : string) (f : V -> option SyntaxError)
      (m : gomap V) :
  rangeSanitize V label f m = None <-> Forall (fun kv => f (snd kv) = None) m.
Proof.
  induction m as [|[key v] m IH]; simpl.
  - split; [constructor | reflexivity].
  - destruct (f v) eqn:E.
    + split; [discriminate|]. intros H. inversion H; subst. simpl in *. congruence.
    + rewrite IH. split; [now constructor | intros H; now inversion H].
Qed.

Lemma rangeSanitize_Some (V : Type) (label : string) (f : V -> option SyntaxError)
      (m : gomap V) (e : SyntaxError) :
  rangeSanitize V label f m = Some e ->
  exists key v e0, In (key, v) m /\ f v = Some e0 /\
                   e = setField e0 (label ++ "[" ++ key ++ "]." ++ Field e0)%string.
Proof.
  induction m as [|[key v] m IH]; simpl; [discriminate|].
  destruct (f v) as [e0|] eqn:E.
  - intros [= <-]. exists key, v, e0. auto.
  - intros H. destruct (IH H) as (k & v' & e0 & Hin & Hf & He).
    exists k, v', e0. auto.
Qed.

Lemma rangeSanitize_Permutation (V : Type) (label : string) (f : V -> option SyntaxError)
      (m m' : gomap V) :
  Permutation m m' -> (rangeSanitize V label f m = None <-> rangeSanitize V label f m' = None).
Proof.
  intros Hp. rewrite !rangeSanitize_None. split; intros H.
  - eapply Permutation_Forall; eauto.
  - eapply Permutation_Forall; [apply Permutation_sym|]; eauto.
Qed.

Lemma withPrefix_None (prefix : string) (r : option SyntaxError) :
  withPrefix prefix r = None <-> r = None.
Proof. destruct r; simpl; split; congruence. Qed.

#[local] Abbreviation sanitizeEncoding :=
  (Encoding_sanitize Header Style Header_sanitize Style_sanitize).
#[local] Abbreviation sanitizeMediaType :=
  (MediaType_sanitize Header Schema Style Header_sanitize Schema_sanitize Style_sanitize).
#[local] Abbreviation sanitizeRequestBody :=
  (RequestBody_sanitize Header Schema Style Header_sanitize Schema_sanitize Style_sanitize).
#[local] Abbreviation sanitizeResponse :=
  (Response_sanitize Header Link Schema Style Header_sanitize Link_sanitize
     Schema_sanitize Style_sanitize).
#[local] Abbreviation sanitizeOperation :=
  (Operation_sanitize Header Link Schema Style Header_sanitize Link_sanitize
     Schema_sanitize Style_sanitize).
#[local] Abbreviation sanitizePathItem :=
  (PathItem_sanitize Header Link Schema Style Header_sanitize Link_sanitize
     Schema_sanitize Style_sanitize).
#[local] Abbreviation passes f := (fun kv => f (snd kv) = None).

Lemma Response_sanitize_None (resp : Response Header Link Schema Style) :
  sanitizeResponse resp = None <->
  Description _ _ _ _ resp <> "" /\
  Forall (passes Header_sanitize) (Headers _ _ _ _ resp) /\
  Forall (passes sanitizeMediaType) (Content _ _ _ _ resp) /\
  Forall (passes Link_sanitize) (Links _ _ _ _ resp).
Proof.
  unfold Response_sanitize.
  destruct (String.eqb_spec (Description _ _ _ _ resp) "") as [E | E].
  { split; [discriminate | intros [H _]; contradiction]. }
  pose proof (rangeSanitize_None _ "headers" Header_sanitize (Headers _ _ _ _ resp)) as H1.
  pose proof (rangeSanitize_None _ "content" sanitizeMediaType (Content _ _ _ _ resp)) as H2.
  pose proof (rangeSanitize_None _ "links" Link_sanitize (Links _ _ _ _ resp)) as H3.
  destruct (rangeSanitize _ "headers" Header_sanitize (Headers _ _ _ _ resp));
    [split; [discriminate | intros (_ & H & _); apply H1 in H; discriminate]|].
  destruct (rangeSanitize _ "content" sanitizeMediaType (Content _ _ _ _ resp));
    [split; [discriminate | intros (_ & _ & H & _); apply H2 in H; discriminate]|].
  rewrite H3. intuition.
Qed.

Lemma Encoding_sanitize_None (en : Encoding Header Style) :
  sanitizeEncoding en = None <->
  Style_sanitize (EStyle _ _ en) = None /\
  Forall (passes Header_sanitize) (EHeaders _ _ en).
Proof.
  unfold Encoding_sanitize.
  destruct (Style_sanitize (EStyle _ _ en));
    [split; [discriminate | intros [H _]; discriminate]|].
  rewrite rangeSanitize_None. intuition.
Qed.

Lemma MediaType_sanitize_None (mt : MediaType Header Schema Style) :
  sanitizeMediaType mt = None <->
  (forall s, MSchema _ _ _ mt = Some s -> Schema_sanitize s = None) /\
  Forall (passes sanitizeEncoding) (MEncoding _ _ _ mt).
Proof.
  unfold MediaType_sanitize. destruct (MSchema _ _ _ mt) as [s|].
  - destruct (Schema_sanitize s) eqn:E; simpl.
    + split; [discriminate | intros [H _]]. specialize (H s eq_refl). congruence.
    + rewrite rangeSanitize_None. split; [intros H; split; [intros s' [= <-]|]; auto | tauto].
  - rewrite rangeSanitize_None.
    split; [intros H; split; [intros s; discriminate | exact H] | tauto].
Qed.

Lemma RequestBody_sanitize_None (req : RequestBody Header Schema Style) :
  sanitizeRequestBody req = None <->
  BContent _ _ _ req <> [] /\ Forall (passes sanitizeMediaType) (BContent _ _ _ req).
Proof.
  unfold RequestBody_sanitize. destruct (BContent _ _ _ req) as [|kv m] eqn:E.
  - simpl. split; [discriminate | intros [H _]; congruence].
  - cbn [length Nat.eqb]. rewrite rangeSanitize_None.
    split; [intros H; split; [discriminate | exact H] | tauto].
Qed.

Lemma Operation_sanitize_unfold (body : option (RequestBody Header Schema Style))
      (responses : gomap (Response Header Link Schema Style))
      (callbacks : gomap (PathItem Header Link Schema Style)) :
  sanitizeOperation (mkOperation _ _ _ _ body responses callbacks) =
    if length responses =? 0
    then Some (NewLocaleError "" "responses" 0 ErrRequired)
    else
      match rangeSanitize _ "responses" sanitizeResponse responses with
      | Some err => Some err
      | None =>
          match rangeSanitize _ "callbacks" sanitizePathItem callbacks with
          | Some err => Some err
          | None =>
              match body with
              | Some req => withPrefix "request." (sanitizeRequestBody req)
              | None => None
              end
          end
      end.
Proof. reflexivity. Qed.

Lemma Operation_sanitize_None (body : option (RequestBody Header Schema Style))
      (responses : gomap (Response Header Link Schema Style))
      (callbacks : gomap (PathItem Header Link Schema Style)) :
  sanitizeOperation (mkOperation _ _ _ _ body responses callbacks) = None <->
  responses <> [] /\
  Forall (passes sanitizeResponse) responses /\
  Forall (passes sanitizePathItem) callbacks /\
  (forall req, body = Some req -> sanitizeRequestBody req = None).
Proof.
  rewrite Operation_sanitize_unfold.
  destruct (length responses =? 0) eqn:El.
  { apply Nat.eqb_eq, length_zero_iff_nil in El.
    split; [discriminate | intros [H _]; congruence]. }
  assert (Hne : responses <> []) by (intros ->; discriminate).
  pose proof (rangeSanitize_None _ "responses" sanitizeResponse responses) as H1.
  pose proof (rangeSanitize_None _ "callbacks" sanitizePathItem callbacks) as H2.
  destruct (rangeSanitize _ "responses" sanitizeResponse responses);
    [split; [discriminate | intros (_ & H & _); apply H1 in H; discriminate]|].
  destruct (rangeSanitize _ "callbacks" sanitizePathItem callbacks);
    [split; [discriminate | intros (_ & _ & H & _); apply H2 in H; discriminate]|].
  destruct body as [req|].
  - rewrite withPrefix_None. split.
    + intros H. repeat split; try tauto. intros req' [= <-]. exact H.
    + intros (_ & _ & _ & H). now apply H.
  - split; [|reflexivity]. intros _. repeat split; try tauto. intros req; discriminate.
Qed.

Lemma PathItem_sanitize_first (path : PathItem Header Link Schema Style) :
  sanitizePathItem path =
    match firstOperation _ _ _ _ path with
    | None => Some (NewLocaleError "" "operation" 0 ErrRequired)
    | Some (o, method) => withPrefix (method ++ ".") (sanitizeOperation o)
    end.
Proof.
  destruct path as [[get|] [put|] [post|] [delete|] [options|] [head|] [patch|] [trace|]];
    reflexivity.
Qed.

(** When the sanitize methods accept.  An Encoding passes when its Style
    and every header pass; a MediaType when its schema (if any) and every
    encoding pass; a RequestBody when it has content and every media type
    passes; a Response when it has a description and every header, media
    type and link passes; an Operation when it has responses and every
    response and callback and the request body (if any) pass. *)
Theorem sanitize_accepts_iff_all_parts
        (en : Encoding Header Style) (mt : MediaType Header Schema Style)
        (req : RequestBody Header Schema Style) (resp : Response Header Link Schema Style)
        (body : option (RequestBody Header Schema Style))
        (responses : gomap (Response Header Link Schema Style))
        (callbacks : gomap (PathItem Header Link Schema Style)) :
  (sanitizeEncoding en = None <->
   Style_sanitize (EStyle _ _ en) = None /\
   Forall (passes Header_sanitize) (EHeaders _ _ en)) /\
  (sanitizeMediaType mt = None <->
   (forall s, MSchema _ _ _ mt = Some s -> Schema_sanitize s = None) /\
   Forall (passes sanitizeEncoding) (MEncoding _ _ _ mt)) /\
  (sanitizeRequestBody req = None <->
   BContent _ _ _ req <> [] /\ Forall (passes sanitizeMediaType) (BContent _ _ _ req)) /\
  (sanitizeResponse resp = None <->
   Description _ _ _ _ resp <> "" /\
   Forall (passes Header_sanitize) (Headers _ _ _ _ resp) /\
   Forall (passes sanitizeMediaType) (Content _ _ _ _ resp) /\
   Forall (passes Link_sanitize) (Links _ _ _ _ resp)) /\
  (sanitizeOperation (mkOperation _ _ _ _ body responses callbacks) = None <->
   responses <> [] /\
   Forall (passes sanitizeResponse) responses /\
   Forall (passes sanitizePathItem) callbacks /\
   (forall r, body = Some r -> sanitizeRequestBody r = None)).
Proof.
  split; [apply Encoding_sanitize_None|].
  split; [apply MediaType_sanitize_None|].
  split; [apply RequestBody_sanitize_None|].
  split; [apply Response_sanitize_None | apply Operation_sanitize_None].
Qed.

(** The maps are visited in an order Go leaves open; whether an Operation
    or a Response is accepted does not depend on it. *)
Theorem sanitize_order_independent
        (body : option (RequestBody Header Schema Style))
        (responses responses' : gomap (Response Header Link Schema Style))
        (callbacks callbacks' : gomap (PathItem Header Link Schema Style))
        (description ref : string)
        (headers headers' : gomap Header)
        (content content' : gomap (MediaType Header Schema Style))
        (links links' : gomap Link) :
  Permutation responses responses' -> Permutation callbacks callbacks' ->
  Permutation headers headers' -> Permutation content content' ->
  Permutation links links' ->
  (sanitizeOperation (mkOperation _ _ _ _ body responses callbacks) = None <->
   sanitizeOperation (mkOperation _ _ _ _ body responses' callbacks') = None) /\
  (sanitizeResponse (mkResponse _ _ _ _ description headers content links ref) = None <->
   sanitizeResponse (mkResponse _ _ _ _ description headers' content' links' ref) = None).
Proof.
  intros Hr Hc Hh Hm Hl. split.
  - rewrite !Operation_sanitize_None.
    assert (Hnil : responses <> [] <-> responses' <> []).
    { split; intros H E; apply H; subst.
      - apply Permutation_sym in Hr. now apply Permutation_nil in Hr.
      - now apply Permutation_nil in Hr. }
    rewrite Hnil.
    split; intros (H1 & H2 & H3 & H4); repeat split; auto;
      try (eapply Permutation_Forall; [|eassumption]; auto using Permutation_sym).
  - rewrite !Response_sanitize_None. cbn [Description Headers Content Links].
    split; intros (H1 & H2 & H3 & H4); repeat split; auto;
      try (eapply Permutation_Forall; [|eassumption]; auto using Permutation_sym).
Qed.

(** An error of [Operation.sanitize] names what it is about: no response
    at all, or an entry of the responses, or an entry of the callbacks, or
    the request body; the field of the inner error is kept behind the
    prefix that names the entry by its key. *)
Theorem Operation_sanitize_error_names_entry
        (body : option (RequestBody Header Schema Style))
        (responses : gomap (Response Header Link Schema Style))
        (callbacks : gomap (PathItem Header Link Schema Style)) (e : SyntaxError) :
  sanitizeOperation (mkOperation _ _ _ _ body responses callbacks) = Some e ->
  (responses = [] /\ e = NewLocaleError "" "responses" 0 ErrRequired) \/
  (exists key resp e0,
      In (key, resp) responses /\ sanitizeResponse resp = Some e0 /\
      e = setField e0 ("responses[" ++ key ++ "]." ++ Field e0)%string) \/
  (exists key call e0,
      In (key, call) callbacks /\ sanitizePathItem call = Some e0 /\
      e = setField e0 ("callbacks[" ++ key ++ "]." ++ Field e0)%string) \/
  (exists r e0,
      body = Some r /\ sanitizeRequestBody r = Some e0 /\
      e = setField e0 ("request." ++ Field e0)%string).
Proof.
  rewrite Operation_sanitize_unfold.
  destruct (length responses =? 0) eqn:El.
  { apply Nat.eqb_eq, length_zero_iff_nil in El. intros [= <-]. left. auto. }
  destruct (rangeSanitize _ "responses" sanitizeResponse responses) as [e1|] eqn:E1.
  { intros [= <-]. right; left. now apply rangeSanitize_Some in E1. }
  destruct (rangeSanitize _ "callbacks" sanitizePathItem callbacks) as [e2|] eqn:E2.
  { intros [= <-]. right; right; left. now apply rangeSanitize_Some in E2. }
  destruct body as [r|]; [|discriminate].
  destruct (sanitizeRequestBody r) as [e0|] eqn:E3; [|discriminate].
  intros [= <-]. right; right; right. exists r, e0. auto.
Qed.

(** [PathItem.sanitize] looks at one operation only, the first that is set
    in the order GET, PUT, POST, DELETE, OPTIONS, HEAD, PATCH, TRACE; with
    none set it asks for one.  Two path items with the same first operation
    get the same answer, whatever their other operations are. *)
Theorem PathItem_sanitize_first_operation (path : PathItem Header Link Schema Style) :
  (firstOperation _ _ _ _ path = None ->
   sanitizePathItem path = Some (NewLocaleError "" "operation" 0 ErrRequired)) /\
  (forall o method,
      firstOperation _ _ _ _ path = Some (o, method) ->
      sanitizePathItem path = withPrefix (method ++ ".") (sanitizeOperation o)) /\
  (forall path',
      firstOperation _ _ _ _ path' = firstOperation _ _ _ _ path ->
      sanitizePathItem path' = sanitizePathItem path).
Proof.
  rewrite PathItem_sanitize_first. repeat split.
  - now intros ->.
  - now intros o method ->.
  - intros path' H. now rewrite PathItem_sanitize_first, H.
Qed.

End OpenAPIFacts.

(** The theorem on an operation with two responses, visited in either
    order. *)
Lemma sanitize_order_independent_witness :
  OpenAPI.Operation_sanitize bool bool bool bool passWhenTrue passWhenTrue passWhenTrue
    passWhenTrue
    (sampleOperation [("200", sampleResponse "ok" []); ("404", sampleResponse "" [])]) = None
  <->
  OpenAPI.Operation_sanitize bool bool bool bool passWhenTrue passWhenTrue passWhenTrue
    passWhenTrue
    (sampleOperation [("404", sampleResponse "" []); ("200", sampleResponse "ok" [])]) = None.
Proof.
  apply (sanitize_order_independent bool bool bool bool passWhenTrue passWhenTrue
           passWhenTrue passWhenTrue None
           [("200", sampleResponse "ok" []); ("404", sampleResponse "" [])]
           [("404", sampleResponse "" []); ("200", sampleResponse "ok" [])]
           [] [] "" "" [] [] [] [] [] []);
    try apply Permutation_refl.
  apply perm_swap.
Defined.

(** The theorem at work: the response [404] has no description, and the
    error says so. *)
Lemma Operation_sanitize_error_names_entry_witness :
  exists key resp e0,
    In (key, resp) [("200", sampleResponse "ok" []); ("404", sampleResponse "" [])] /\
    OpenAPI.Response_sanitize bool bool bool bool passWhenTrue passWhenTrue passWhenTrue
      passWhenTrue resp = Some e0 /\
    mkSyntaxError "" "responses[404].description" 0 ErrRequired
    = setField e0 ("responses[" ++ key ++ "]." ++ Field e0)%string.
Proof.
  destruct (Operation_sanitize_error_names_entry bool bool bool bool passWhenTrue
              passWhenTrue passWhenTrue passWhenTrue None
              [("200", sampleResponse "ok" []); ("404", sampleResponse "" [])] []
              (mkSyntaxError "" "responses[404].description" 0 ErrRequired) eq_refl)
    as [[H _] | [H | [(key & call & e0 & [] & _) | (r & e0 & H & _)]]];
    [discriminate | exact H | discriminate].
Defined.

(** The theorem at work: GET is in order, PUT has no responses, and the
    path item passes. *)
Lemma PathItem_sanitize_first_operation_witness :
  OpenAPI.PathItem_sanitize bool bool bool bool passWhenTrue passWhenTrue passWhenTrue
    passWhenTrue
    (OpenAPI.mkPathItem bool bool bool bool
       (Some (sampleOperation [("200", sampleResponse "ok" [])]))
       (Some (sampleOperation [])) None None None None None None)
  = None.
Proof.
  destruct (PathItem_sanitize_first_operation bool bool bool bool passWhenTrue
              passWhenTrue passWhenTrue passWhenTrue
              (OpenAPI.mkPathItem bool bool bool bool
                 (Some (sampleOperation [("200", sampleResponse "ok" [])]))
                 (Some (sampleOperation [])) None None None None None None))
    as (_ & H & _).
  rewrite (H (sampleOperation [("200", sampleResponse "ok" [])]) "GET" eq_refl).
  reflexivity.
Defined.

(** ** parser *)

Section ParserFacts.
Import Parser.

Variables apiPrefix apiDocPrefix : list byte.
Variable DefaultGroupName : string.
Variables OpenAPIDoc api Info error : Type.
Variable emptyDoc : OpenAPIDoc.
Variable api_Group : api -> string.
Variable api_setAPI : api -> string -> api.
Variable Info_Group : Info -> string.
Variable Info_setTitle : Info -> string -> Info.
Variable yaml_api : list byte -> error + api.
Variable yaml_Info : list byte -> error + Info.
Variable parseAPI : OpenAPIDoc -> api -> OpenAPIDoc * option error.
Variable parseInfo : OpenAPIDoc -> Info -> OpenAPIDoc * option error.

#[local] Abbreviation getDoc' := (getDoc DefaultGroupName OpenAPIDoc emptyDoc).
#[local] Abbreviation groupName' := (groupName DefaultGroupName).
#[local] Abbreviation parse' :=
  (parse apiPrefix apiDocPrefix DefaultGroupName OpenAPIDoc api Info error emptyDoc
     api_Group api_setAPI Info_Group Info_setTitle yaml_api yaml_Info parseAPI parseInfo).
#[local] Abbreviation inDoc' := (inDoc DefaultGroupName OpenAPIDoc error emptyDoc).

Lemma IndexByte_from_absent (data : list byte) (c : byte) :
  forall i, ~ In c data -> IndexByte_from i data c = (-1)%Z.
Proof.
  induction data as [|x data IH]; intros i Hnot; simpl; [reflexivity|].
  destruct (Byte.eqb x c) eqn:E.
  - apply byte_eqb_eq in E. subst. exfalso. apply Hnot. now left.
  - apply IH. intros H. apply Hnot. now right.
Qed.

Lemma IndexByte_from_first (line rest : list byte) (c : byte) :
  forall i, ~ In c line ->
            IndexByte_from i (line ++ c :: rest) c = (i + Z.of_nat (length line))%Z.
Proof.
  induction line as [|x line IH]; intros i Hnot; simpl.
  - rewrite byte_eqb_refl. lia.
  - destruct (Byte.eqb x c) eqn:E.
    + apply byte_eqb_eq in E. subst. exfalso. apply Hnot. now left.
    + rewrite IH by (intros H; apply Hnot; now right). lia.
Qed.

Lemma lookup_store_same (g : string) (d : OpenAPIDoc) (m : list (string * OpenAPIDoc)) :
  lookup OpenAPIDoc g (store OpenAPIDoc g d m) = Some d.
Proof.
  induction m as [|[k d'] m IH]; simpl.
  - now rewrite String.eqb_refl.
  - destruct (String.eqb k g) eqn:E; simpl; rewrite E; [reflexivity | exact IH].
Qed.

Lemma lookup_store_other (g g' : string) (d : OpenAPIDoc) (m : list (string * OpenAPIDoc)) :
  g' <> g -> lookup OpenAPIDoc g' (store OpenAPIDoc g d m) = lookup OpenAPIDoc g' m.
Proof.
  intros Hne. induction m as [|[k d'] m IH]; simpl.
  - destruct (String.eqb_spec g g'); [congruence | reflexivity].
  - destruct (String.eqb_spec k g) as [-> | Hk]; simpl.
    + destruct (String.eqb_spec g g'); [congruence | reflexivity].
    + destruct (String.eqb k g'); [reflexivity | exact IH].
Qed.

Lemma groupName_idem (group : string) :
  groupName' (groupName' group) = groupName' group.
Proof.
  unfold groupName. destruct (String.eqb_spec group "") as [-> | H].
  - destruct (String.eqb DefaultGroupName ""); reflexivity.
  - now apply String.eqb_neq in H as ->.
Qed.

(** [parser.parse] on a block that starts with the API prefix: without a
    newline in the block the slice expression panics (the index is -1);
    otherwise the first line becomes the API field and what follows the
    newline is what is read as YAML. *)
Theorem parse_cuts_first_line (p : parser OpenAPIDoc) (data : list byte) :
  HasPrefix data apiPrefix = true ->
  (~ In newline data -> parse' p data = SliceBoundsPanic OpenAPIDoc error) /\
  (forall line rest,
      data = line ++ newline :: rest -> ~ In newline line ->
      parse' p data =
        match yaml_api rest with
        | inl err => Returned OpenAPIDoc error p (Some err)
        | inr a => inDoc' p (api_Group a) parseAPI (api_setAPI a (string_of_list_byte line))
        end).
Proof.
  intros Hpre. unfold parse. rewrite Hpre. unfold bytes_IndexByte. split.
  - intros Hnot. now rewrite IndexByte_from_absent.
  - intros line rest -> Hnot. rewrite IndexByte_from_first by exact Hnot.
    replace (0 + Z.of_nat (length line) <? 0)%Z with false by (symmetry; apply Z.ltb_ge; lia).
    replace (Z.to_nat (0 + Z.of_nat (length line))) with (length line) by lia.
    replace (Z.to_nat (0 + Z.of_nat (length line) + 1)) with (length line + 1) by lia.
    rewrite firstn_app, Nat.sub_diag, firstn_all. cbn [firstn]. rewrite app_nil_r.
    rewrite skipn_app, skipn_all2 by lia.
    replace (length line + 1 - length line) with 1 by lia. reflexivity.
Qed.

(** The order of the two tests of [parser.parse].  A block with neither
    prefix is ignored without an error.  When the API prefix is itself a
    prefix of the APIDoc prefix, every APIDoc block is taken by the first
    test, and the second branch never runs: whatever is put in place of the
    Info type and its functions, the result is the same. *)
Theorem parse_prefix_order (p : parser OpenAPIDoc) (data : list byte) :
  (HasPrefix data apiPrefix = false -> HasPrefix data apiDocPrefix = false ->
   parse' p data = Returned OpenAPIDoc error p None) /\
  (HasPrefix apiDocPrefix apiPrefix = true ->
   HasPrefix data apiDocPrefix = true ->
   HasPrefix data apiPrefix = true /\
   forall (Info' : Type) (Info_Group' : Info' -> string)
          (Info_setTitle' : Info' -> string -> Info')
          (yaml_Info' : list byte -> error + Info')
          (parseInfo' : OpenAPIDoc -> Info' -> OpenAPIDoc * option error),
     parse' p data
     = parse apiPrefix apiDocPrefix DefaultGroupName OpenAPIDoc api Info' error emptyDoc
         api_Group api_setAPI Info_Group' Info_setTitle' yaml_api yaml_Info'
         parseAPI parseInfo' p data).
Proof.
  split.
  - intros H1 H2. unfold parse. now rewrite H1, H2.
  - intros Hpp Hd.
    pose proof (HasPrefix_trans data apiDocPrefix apiPrefix Hd Hpp) as Hapi.
    split; [exact Hapi|]. intros. unfold parse. now rewrite Hapi.
Qed.

(** [getDoc] gets or makes.  Afterwards the group (the default one for the
    empty name) has a document, which is the one returned; the other groups
    are as before; a document that was there is returned as it is and the
    map is not touched; a missing one is made empty; asking again gives the
    same document and changes nothing; and every call prints the map once. *)
Theorem getDoc_get_or_create (p : parser OpenAPIDoc) (group : string) :
  let p' := fst (getDoc' p group) in
  let d := snd (getDoc' p group) in
  lookup OpenAPIDoc (groupName' group) (docs _ p') = Some d /\
  (forall g, g <> groupName' group ->
             lookup OpenAPIDoc g (docs _ p') = lookup OpenAPIDoc g (docs _ p)) /\
  (forall d0, lookup OpenAPIDoc (groupName' group) (docs _ p) = Some d0 ->
              d = d0 /\ docs _ p' = docs _ p) /\
  (lookup OpenAPIDoc (groupName' group) (docs _ p) = None -> d = emptyDoc) /\
  (snd (getDoc' p' group) = d /\ docs _ (fst (getDoc' p' group)) = docs _ p') /\
  getDoc' p "" = getDoc' p DefaultGroupName /\
  stdout _ p' = stdout _ p ++ [docs _ p'].
Proof.
  intros p' d. subst p' d.
  assert (Hdefault : groupName' "" = groupName' DefaultGroupName).
  { unfold groupName. cbn [String.eqb].
    destruct (String.eqb DefaultGroupName ""); reflexivity. }
  unfold getDoc. rewrite Hdefault.
  destruct (lookup OpenAPIDoc (groupName' group) (docs _ p)) as [d0|] eqn:E;
    cbn [fst snd docs stdout].
  - rewrite E. cbn [fst snd docs].
    split; [reflexivity|]. split; [reflexivity|].
    split; [now intros d1 [= <-]|]. split; [discriminate|].
    split; [split; reflexivity|]. split; reflexivity.
  - rewrite lookup_store_same. cbn [fst snd docs].
    split; [reflexivity|].
    split; [intros g Hg; now apply lookup_store_other|].
    split; [discriminate|]. split; [reflexivity|].
    split; [split; reflexivity|]. split; reflexivity.
Qed.

Lemma inDoc_one_group (X : Type) (p p' : parser OpenAPIDoc) (group : string)
      (parseX : OpenAPIDoc -> X -> OpenAPIDoc * option error) (x : X) (err : option error) :
  inDoc' p group parseX x = Returned OpenAPIDoc error p' err ->
  (forall g, g <> groupName' group ->
             lookup OpenAPIDoc g (docs _ p') = lookup OpenAPIDoc g (docs _ p)) /\
  lookup OpenAPIDoc (groupName' group) (docs _ p') <> None /\
  length (stdout _ p') = S (length (stdout _ p)).
Proof.
  unfold inDoc, getDoc.
  destruct (lookup OpenAPIDoc (groupName' group) (docs _ p)) as [d0|].
  - destruct (parseX d0 x) as [d' e]. intros [= <- <-]. cbn [docs stdout].
    split; [|split].
    + intros g Hg. now apply lookup_store_other.
    + rewrite lookup_store_same. discriminate.
    + rewrite length_app. simpl. lia.
  - destruct (parseX emptyDoc x) as [d' e]. intros [= <- <-]. cbn [docs stdout].
    split; [|split].
    + intros g Hg. now rewrite !lookup_store_other by exact Hg.
    + rewrite lookup_store_same. discriminate.
    + rewrite length_app. simpl. lia.
Qed.

(** When [parser.parse] returns, either the parser is as before (no prefix,
    or YAML that cannot be read), or one call of [getDoc] was made: the
    documents of all groups but one are as before, that group has a
    document, and one line was printed. *)
Theorem parse_touches_one_group (p p' : parser OpenAPIDoc) (data : list byte)
        (err : option error) :
  parse' p data = Returned OpenAPIDoc error p' err ->
  p' = p \/
  exists group,
    (forall g, g <> groupName' group ->
               lookup OpenAPIDoc g (docs _ p') = lookup OpenAPIDoc g (docs _ p)) /\
    lookup OpenAPIDoc (groupName' group) (docs _ p') <> None /\
    length (stdout _ p') = S (length (stdout _ p)).
Proof.
  unfold parse.
  destruct (HasPrefix data apiPrefix).
  - destruct (bytes_IndexByte data newline <? 0)%Z; [discriminate|].
    destruct (yaml_api _) as [e | a].
    + intros [= <- _]. now left.
    + intros H. right. exists (api_Group a). eapply inDoc_one_group; eauto.
  - destruct (HasPrefix data apiDocPrefix).
    + destruct (bytes_IndexByte data newline <? 0)%Z; [discriminate|].
      destruct (yaml_Info _) as [e | info].
      * intros [= <- _]. now left.
      * intros H. right. exists (Info_Group info). eapply inDoc_one_group; eauto.
    + intros [= <- _]. now left.
Qed.

End ParserFacts.

(** The theorem on an API block of one line without a newline. *)
Lemma parse_cuts_first_line_witness :
  sampleParse (Parser.mkParser _ [] []) (bytes "@api GET /u")
  = Parser.SliceBoundsPanic (list string) string.
Proof.
  destruct (parse_cuts_first_line sampleAPIPrefix sampleAPIDocPrefix "-" (list string)
              (string * string) (string * string) string []
              fst (fun a line => (fst a, line)) fst (fun i line => (fst i, line))
              sampleYAML sampleYAML sampleParseInto sampleParseInto
              (Parser.mkParser _ [] []) (bytes "@api GET /u") eq_refl) as [H _].
  apply H. intros Hin. cbv in Hin.
  repeat (destruct Hin as [Hin | Hin]; [discriminate Hin|]). exact Hin.
Defined.

(** The theorem at the sample prefixes: a block written for the APIDoc
    branch starts with the API prefix. *)
Lemma parse_prefix_order_witness :
  HasPrefix (bytes "@apidoc title" ++ [newline]) sampleAPIPrefix = true.
Proof.
  destruct (parse_prefix_order sampleAPIPrefix sampleAPIDocPrefix "-" (list string)
              (string * string) (string * string) string []
              fst (fun a line => (fst a, line)) fst (fun i line => (fst i, line))
              sampleYAML sampleYAML sampleParseInto sampleParseInto
              (Parser.mkParser _ [] []) (bytes "@apidoc title" ++ [newline])) as [_ H].
  destruct (H eq_refl eq_refl) as [Hapi _]. exact Hapi.
Defined.

(** The theorem on an API block of the group [users], parsed by an empty
    parser. *)
Lemma parse_touches_one_group_witness :
  let p' := Parser.mkParser _ [("users", ["@api GET /u"])] [[("users", [])]] in
  p' = Parser.mkParser _ [] [] \/
  exists group,
    (forall g, g <> Parser.groupName "-" group ->
               Parser.lookup _ g (Parser.docs _ p') = Parser.lookup _ g []) /\
    Parser.lookup _ (Parser.groupName "-" group) (Parser.docs _ p') <> None /\
    length (Parser.stdout _ p') = 1.
Proof.
  apply (parse_touches_one_group sampleAPIPrefix sampleAPIDocPrefix "-" (list string)
           (string * string) (string * string) string []
           fst (fun a line => (fst a, line)) fst (fun i line => (fst i, line))
           sampleYAML sampleYAML sampleParseInto sampleParseInto
           (Parser.mkParser _ [] [])
           (Parser.mkParser _ [("users", ["@api GET /u"])] [[("users", [])]])
           (bytes "@api GET /u" ++ [newline] ++ bytes "users") None).
  reflexivity.
Defined.

(** ** cmd/apidoc *)

Section MainFacts.
Import Main.

Variables error Config : Type.
Variable Abs : string -> error + string.
Variable Load : string -> error + Config.
Variable Write : string -> option error.
Variable Do : Config -> option error.
Variable InputParse : Config -> option error.
Variable OutputPath : Config -> string.

#[local] Abbreviation absAll' := (absAll error Abs).
#[local] Abbreviation getPaths' := (getPaths error Abs).
#[local] Abbreviation parsePath' := (parsePath error Config Load Do InputParse OutputPath).
#[local] Abbreviation parseLoop' := (parseLoop error Config Load Do InputParse OutputPath).
#[local] Abbreviation parse' := (parse error Config Abs Load Do InputParse OutputPath).
#[local] Abbreviation detectLoop' := (detectLoop error Config Write).
#[local] Abbreviation detect' := (detect error Config Abs Write).
#[local] Abbreviation written' := (written error Config).

Lemma absAll_ok (paths : list string) :
  forall result, absAll' paths = inr result -> Forall2 (fun a p => Abs a = inr p) paths result.
Proof.
  induction paths as [|a paths IH]; simpl; intros result H.
  - injection H as <-. constructor.
  - destruct (Abs a) as [e|p] eqn:Ea; [discriminate|].
    destruct (absAll' paths) as [e|ps]; [discriminate|].
    injection H as <-. constructor; [exact Ea | now apply IH].
Qed.

Lemma absAll_error (paths : list string) :
  forall e, absAll' paths = inl e ->
    exists before a after,
      paths = before ++ a :: after /\ Abs a = inl e /\
      Forall (fun b => exists p, Abs b = inr p) before.
Proof.
  induction paths as [|a paths IH]; simpl; intros e H; [discriminate|].
  destruct (Abs a) as [e'|p] eqn:Ea.
  - injection H as <-. exists [], a, paths. repeat split; auto.
  - destruct (absAll' paths) as [e'|ps]; [|discriminate].
    injection H as <-. destruct (IH e' eq_refl) as (before & b & after & -> & Hb & Hall).
    exists (a :: before), b, after. repeat split; auto.
    constructor; [now exists p | exact Hall].
Qed.

(** [getPaths] takes the current directory when no argument is given, and
    turns every argument into its absolute form, in order; it fails with the
    error of the first argument that has none, and succeeds when all have
    one. *)
Theorem getPaths_every_argument (args : list string) :
  let given := if length args =? 0 then ["./"] else args in
  (forall paths, getPaths error Abs args = inr paths ->
                 Forall2 (fun a p => Abs a = inr p) given paths) /\
  (forall e, getPaths error Abs args = inl e ->
             exists before a after,
               given = before ++ a :: after /\ Abs a = inl e /\
               Forall (fun b => exists p, Abs b = inr p) before) /\
  (Forall (fun a => exists p, Abs a = inr p) given ->
   exists paths, getPaths error Abs args = inr paths /\ length paths = length given).
Proof.
  intros given.
  assert (Hg : getPaths' args = absAll' given).
  { unfold getPaths. subst given. destruct args; reflexivity. }
  rewrite Hg. split; [|split].
  - apply absAll_ok.
  - apply absAll_error.
  - intros Hall. destruct (absAll' given) as [e|paths] eqn:E.
    + apply absAll_error in E. destruct E as (before & a & after & Heq & Ha & _).
      rewrite Heq in Hall. apply Forall_app in Hall. destruct Hall as [_ Hall].
      inversion Hall as [|x l [p Hp] _]. congruence.
    + exists paths. split; [reflexivity|].
      apply absAll_ok in E. symmetry. eapply Forall2_length; eauto.
Qed.

Lemma parseLoop_app (test : bool) (ps1 ps2 : list string) :
  parseLoop' test (ps1 ++ ps2) = parseLoop' test ps1 ++ parseLoop' test ps2.
Proof.
  induction ps1 as [|p ps1 IH]; cbn [parseLoop app]; [reflexivity|].
  now rewrite IH, app_assoc.
Qed.

Lemma loaded_app (evs1 evs2 : list (event error Config)) :
  loaded _ _ (evs1 ++ evs2) = loaded _ _ evs1 ++ loaded _ _ evs2.
Proof.
  induction evs1 as [|ev evs1 IH]; simpl; [reflexivity|].
  destruct ev; simpl; now rewrite IH.
Qed.

Lemma loaded_parsePath (test : bool) (path : string) :
  loaded _ _ (parsePath' test path) = [path].
Proof.
  unfold parsePath. simpl. destruct (Load path) as [e|cfg]; [reflexivity|].
  destruct test; simpl; [destruct (Do cfg) | destruct (InputParse cfg)]; reflexivity.
Qed.

Lemma loaded_parseLoop (test : bool) (paths : list string) :
  loaded _ _ (parseLoop' test paths) = paths.
Proof.
  induction paths as [|p paths IH]; cbn [parseLoop]; [reflexivity|].
  now rewrite loaded_app, loaded_parsePath, IH.
Qed.

Lemma filter_parsePath_stop (test : bool) (path : string) :
  filter (isStop _ _) (parsePath' test path) = [].
Proof.
  unfold parsePath. simpl. destruct (Load path) as [e|cfg]; [reflexivity|].
  destruct test; simpl; [destruct (Do cfg) | destruct (InputParse cfg)]; reflexivity.
Qed.

Lemma filter_parseLoop_stop (test : bool) (paths : list string) :
  filter (isStop _ _) (parseLoop' test paths) = [].
Proof.
  induction paths as [|p paths IH]; cbn [parseLoop]; [reflexivity|].
  now rewrite filter_app, filter_parsePath_stop, IH.
Qed.

(** [parse] goes through every path: [config.Load] is called for each of
    them, in order, whether or not an earlier one failed; the handler is
    stopped once, at the very end; and the run over a list of paths is the
    run over a first part followed by the run over the rest.  When
    [getPaths] fails, the error is all that is reported. *)
Theorem parse_handles_every_path (test : bool) (args : list string) :
  (forall paths,
      getPaths' args = inr paths ->
      loaded _ _ (parse' test args) = paths /\
      (exists evs, parse' test args = evs ++ [HStop _ _] /\ filter (isStop _ _) evs = []) /\
      forall ps1 ps2, paths = ps1 ++ ps2 ->
        parse' test args = parseLoop' test ps1 ++ parseLoop' test ps2 ++ [HStop _ _]) /\
  (forall e, getPaths' args = inl e -> parse' test args = [HError _ _ e]).
Proof.
  unfold parse. split.
  - intros paths ->. split; [|split].
    + rewrite loaded_app, loaded_parseLoop. simpl. now rewrite app_nil_r.
    + exists (parseLoop' test paths). split; [reflexivity | apply filter_parseLoop_stop].
    + intros ps1 ps2 ->. now rewrite parseLoop_app, app_assoc.
  - now intros e ->.
Qed.

Lemma parsePath_flag (path : string) :
  filter (isDo _ _) (parsePath' false path) = [] /\
  filter (isParseOnly _ _) (parsePath' true path) = [].
Proof.
  unfold parsePath. simpl. destruct (Load path) as [e|cfg]; [split; reflexivity|].
  simpl. destruct (Do cfg), (InputParse cfg); split; reflexivity.
Qed.

Lemma parseLoop_flag (paths : list string) :
  filter (isDo _ _) (parseLoop' false paths) = [] /\
  filter (isParseOnly _ _) (parseLoop' true paths) = [].
Proof.
  induction paths as [|p paths [IH1 IH2]]; cbn [parseLoop]; [split; reflexivity|].
  rewrite !filter_app, IH1, IH2.
  destruct (parsePath_flag p) as [-> ->]. split; reflexivity.
Qed.

Lemma parseLoop_calls (paths : list string) (path : string) (cfg : Config) :
  In path paths -> Load path = inr cfg ->
  In (CallDo _ _ cfg) (parseLoop' true paths) /\
  In (CallParse _ _ cfg) (parseLoop' false paths).
Proof.
  intros Hin Hload. induction paths as [|p paths IH]; [contradiction|].
  cbn [parseLoop]. destruct Hin as [-> | Hin].
  - unfold parsePath. rewrite Hload. split; apply in_or_app; left; simpl; auto.
  - destruct (IH Hin) as [H1 H2]. split; apply in_or_app; right; assumption.
Qed.

(** What the argument of [parse] selects.  Under [test] false [apidoc.Do]
    is never called and no Complete message is sent; under [test] true
    [input.Parse] is never called from here and no TestSuccess message is
    sent; every configuration that loads is handed to [apidoc.Do] under
    [test] true and to [input.Parse] under [test] false.  (The comment on
    [parse] describes [test] the other way round.) *)
Theorem parse_test_flag (args : list string) :
  filter (isDo _ _) (parse' false args) = [] /\
  filter (isParseOnly _ _) (parse' true args) = [] /\
  (forall paths path cfg,
      getPaths' args = inr paths -> In path paths -> Load path = inr cfg ->
      In (CallDo _ _ cfg) (parse' true args) /\
      In (CallParse _ _ cfg) (parse' false args)).
Proof.
  unfold parse. destruct (getPaths' args) as [e|paths].
  - repeat split; try reflexivity; discriminate.
  - destruct (parseLoop_flag paths) as [H1 H2].
    split; [now rewrite filter_app, H1|]. split; [now rewrite filter_app, H2|].
    intros ps path cfg [= <-] Hin Hload.
    destruct (parseLoop_calls paths path cfg Hin Hload) as [Hdo Hparse].
    split; apply in_or_app; left; assumption.
Qed.

Lemma detectLoop_stops (before : list string) (dir : string) (after : list string)
      (e : error) :
  Forall (fun d => Write d = None) before -> Write dir = Some e ->
  detectLoop' (before ++ dir :: after)
  = flat_map written' before ++ [CallWrite _ _ dir; TermError _ _ e].
Proof.
  intros Hall Hdir. induction Hall as [|d before Hd _ IH]; cbn [app detectLoop flat_map].
  - now rewrite Hdir.
  - now rewrite Hd, IH.
Qed.

Lemma detectLoop_all (paths : list string) :
  Forall (fun d => Write d = None) paths -> detectLoop' paths = flat_map written' paths.
Proof.
  intros Hall. induction Hall as [|d paths Hd _ IH]; cbn [detectLoop flat_map];
    [reflexivity|]. now rewrite Hd, IH.
Qed.

(** [detect] stops at the first directory that cannot be written: the
    directories before it are written and confirmed, the error is shown, and
    no directory after it is tried.  When every directory can be written,
    each is written and confirmed, in order. *)
Theorem detect_stops_at_first_error (args paths : list string) :
  getPaths error Abs args = inr paths ->
  (Forall (fun d => Write d = None) paths ->
   detect error Config Abs Write args = flat_map (written error Config) paths) /\
  (forall before dir after e,
      paths = before ++ dir :: after ->
      Forall (fun d => Write d = None) before -> Write dir = Some e ->
      detect error Config Abs Write args
      = flat_map (written error Config) before ++ [CallWrite _ _ dir; TermError _ _ e] /\
      forall d, In d after -> ~ In d before -> d <> dir ->
                ~ In (CallWrite _ _ d) (detect error Config Abs Write args)).
Proof.
  intros Hp. unfold detect. rewrite Hp. split; [apply detectLoop_all|].
  intros before dir after e -> Hall Hdir.
  rewrite (detectLoop_stops before dir after e Hall Hdir). split; [reflexivity|].
  intros d _ Hnb Hnd Hin. apply in_app_or in Hin. destruct Hin as [Hin | Hin].
  - apply in_flat_map in Hin. destruct Hin as (x & Hx & Hin).
    destruct Hin as [[= ->] | [H | []]]; [contradiction | discriminate].
  - destruct Hin as [[= ->] | [H | []]]; [contradiction | discriminate].
Qed.

End MainFacts.

(** The theorem without arguments: the current directory is taken. *)
Lemma getPaths_every_argument_witness :
  exists paths, Main.getPaths string sampleAbs [] = inr paths /\ length paths = 1.
Proof.
  destruct (getPaths_every_argument string sampleAbs []) as (_ & _ & H).
  apply H. repeat constructor. now exists "/w/./".
Defined.

(** The theorem on three paths of which the second has no configuration:
    all three are loaded. *)
Lemma parse_handles_every_path_witness :
  Main.loaded _ _ (Main.parse string string sampleAbs sampleLoad sampleRun sampleRun
                     (fun cfg => cfg) false ["a"; "bad"; "c"])
  = ["/w/a"; "/w/bad"; "/w/c"].
Proof.
  destruct (parse_handles_every_path string string sampleAbs sampleLoad sampleRun sampleRun
              (fun cfg => cfg) false ["a"; "bad"; "c"]) as [H _].
  destruct (H ["/w/a"; "/w/bad"; "/w/c"] eq_refl) as [Hl _]. exact Hl.
Defined.

(** The theorem on one path: it is built under [test] true and checked
    under [test] false. *)
Lemma parse_test_flag_witness :
  In (Main.CallDo string string "/w/a")
     (Main.parse string string sampleAbs sampleLoad sampleRun sampleRun
        (fun cfg => cfg) true ["a"]) /\
  In (Main.CallParse string string "/w/a")
     (Main.parse string string sampleAbs sampleLoad sampleRun sampleRun
        (fun cfg => cfg) false ["a"]).
Proof.
  destruct (parse_test_flag string string sampleAbs sampleLoad sampleRun sampleRun
              (fun cfg => cfg) ["a"]) as (_ & _ & H).
  apply (H ["/w/a"] "/w/a" "/w/a"); [reflexivity | now left | reflexivity].
Defined.

(** The theorem on three directories of which the second cannot be
    written: the third is never tried. *)
Lemma detect_stops_at_first_error_witness :
  Main.detect string string sampleAbs sampleWrite ["a"; "bad"; "c"]
  = [Main.CallWrite _ _ "/w/a"; Main.TermWriteSuccess _ _ "/w/a";
     Main.CallWrite _ _ "/w/bad"; Main.TermError _ _ "read-only"].
Proof.
  destruct (detect_stops_at_first_error string string sampleAbs sampleWrite
              ["a"; "bad"; "c"] ["/w/a"; "/w/bad"; "/w/c"] eq_refl) as [_ H].
  destruct (H ["/w/a"] "/w/bad" ["/w/c"] "read-only" eq_refl) as [Heq _].
  - now repeat constructor.
  - reflexivity.
  - exact Heq.
Defined.
